(** * Hyperlace compiler core: a shallow embedding of [Compiler.cpp]

    The development follows the pipeline of [main]: macro expansion
    ([MacroExpander]), parsing of a token vector ([Parser]), semantic
    analysis ([SemanticAnalyzer]), IR emission ([IREmitter]) and NASM
    generation ([NASMGenerator]).  The class [Lexer] is used by [main] but
    is not defined in the repository, so the parser is studied on explicit
    token vectors and the pipeline takes the lexer as a section variable. *)

From stdpp Require Import gmap strings list.

Local Open Scope string_scope.
Local Open Scope list_scope.
Local Open Scope nat_scope.

#[local] Set Warnings "-clear-no-such-hyp".

(** ** Results of C++ calls

    [Throw what] is a [std::runtime_error] carrying [what]; [Undefined] is a
    [std::vector] subscript out of range (undefined behaviour in C++);
    [OutOfFuel] is only produced by the fuel-bounded loops of this file and
    is shown unreachable for the fuel their callers pass. *)

Inductive outcome (A : Type) : Type :=
| Ok (a : A)
| Throw (what : string)
| Undefined
| OutOfFuel.

Arguments Ok {A} a.
Arguments Throw {A} what.
Arguments Undefined {A}.
Arguments OutOfFuel {A}.

Definition obind {A B : Type} (x : outcome A) (f : A → outcome B) : outcome B :=
  match x with
  | Ok a => f a
  | Throw what => Throw what
  | Undefined => Undefined
  | OutOfFuel => OutOfFuel
  end.

(** ** Token definitions *)

Module TokenType.
Inductive t : Set :=
| Identifier | Number | String | Keyword | Symbol | Comment
| Assign | ImmutableAssign | EndOfLine | EndOfFile.

#[global] Instance eq_dec : EqDecision t.
Proof. solve_decision. Defined.
End TokenType.

Record Token : Set := mkToken {
  type : TokenType.t;
  lexeme : string;
  line : Z;
  column : Z
}.

(** ** AST nodes

    The class hierarchy under [ASTNode] becomes two inductive types; a
    [std::dynamic_pointer_cast] is a match on the constructor.  Only
    [ReturnStatement::returnValue] is documented as optional. *)

#[warning="-register-all"]
Inductive Expression : Type :=
| NumberExpr (value : string)
| IdentifierExpr (name : string)
| FunctionCall (functionName : string) (arguments : list Expression)
| StructInit (structName : string)
| FieldAccess (object : Expression) (field : string)
| TernaryExpr (condition thenExpr elseExpr : Expression).

#[warning="-register-all"]
Inductive Statement : Type :=
| Assignment (name : string) (value : Expression)
| FunctionDef (name : string) (params : list string) (body : list Statement)
| IfStatement (condition : Expression) (thenBranch elseBranch : list Statement)
| WhileLoop (condition : Expression) (body : list Statement)
| ForLoop (initializer : Statement) (condition : Expression)
          (increment : Statement) (body : list Statement)
| StructDef (name : string) (fields : list string)
| EnumDef (name : string) (variants : list string)
| ReturnStatement (returnValue : option Expression).

(** ** Parser

    A member function of [Parser] reads the token vector and updates the
    cursor [current]: it is a function from both to an [outcome] holding
    the returned value and the new cursor. *)

Module Parser.

Definition M (A : Type) : Type := list Token → nat → outcome (A * nat).

Definition ret {A : Type} (a : A) : M A := λ _ current, Ok (a, current).

Definition bind {A B : Type} (m : M A) (f : A → M B) : M B :=
  λ tokens current,
    match m tokens current with
    | Ok (a, current') => f a tokens current'
    | Throw what => Throw what
    | Undefined => Undefined
    | OutOfFuel => OutOfFuel
    end.

Definition throw {A : Type} (what : string) : M A := λ _ _, Throw what.

(** [tokens[i]]: undefined when [i] is not an index of the vector. *)
Definition at_index {A : Type} (tokens : list A) (i : nat) : outcome A :=
  match tokens !! i with
  | Some tok => Ok tok
  | None => Undefined
  end.

Declare Scope parser_scope.
Delimit Scope parser_scope with parser.
Notation "'let*' x ':=' m 'in' k" := (bind m (λ x, k))
  (at level 10, x name, m at level 100, k at level 200) : parser_scope.
Local Open Scope parser_scope.

Definition peek : M Token :=
  λ tokens current, obind (at_index tokens current) (λ tok, Ok (tok, current)).

Definition isAtEnd : M bool :=
  let* tok := peek in ret (bool_decide (type tok = TokenType.EndOfFile)).

(** [tokens[current - 1]] on an unsigned cursor: at [current = 0] the index
    wraps around and is out of range. *)
Definition previous : M Token :=
  λ tokens current,
    match current with
    | 0 => Undefined
    | S p => obind (at_index tokens p) (λ tok, Ok (tok, current))
    end.

Definition incr : M unit := λ _ current, Ok (tt, current + 1).

Definition advance : M Token :=
  let* atEnd := isAtEnd in
  let* _ := (if atEnd then ret tt else incr) in
  previous.

Definition match_ (ty : TokenType.t) : M bool :=
  let* tok := peek in
  if bool_decide (type tok = ty) then let* _ := advance in ret true else ret false.

Definition parseExpression : M Expression :=
  let* isNumber := match_ TokenType.Number in
  if isNumber then let* tok := previous in ret (NumberExpr (lexeme tok))
  else
    let* isIdentifier := match_ TokenType.Identifier in
    if isIdentifier then let* tok := previous in ret (IdentifierExpr (lexeme tok))
    else throw "Invalid expression".

Definition parseAssignment : M Statement :=
  let* tok := peek in
  let name := lexeme tok in
  let* _ := advance in
  let* _ := match_ TokenType.Assign in
  let* expr := parseExpression in
  let* _ := match_ TokenType.EndOfLine in
  ret (Assignment name expr).

(** [tokens[current + 1]] is read only when the first conjunct holds. *)
Definition parseStatement : M Statement :=
  let* tok := peek in
  if bool_decide (type tok = TokenType.Identifier) then
    λ tokens current,
      obind (at_index tokens (current + 1)) (λ next,
        if bool_decide (type next = TokenType.Assign)
        then parseAssignment tokens current
        else Throw "Unexpected statement")
  else throw "Unexpected statement".

(** The loop [while (!isAtEnd()) statements.push_back(parseStatement())]. *)
Fixpoint parse_loop (fuel : nat) (statements : list Statement) : M (list Statement) :=
  match fuel with
  | 0 => λ _ _, OutOfFuel
  | S fuel' =>
      let* atEnd := isAtEnd in
      if atEnd then ret statements
      else let* stmt := parseStatement in parse_loop fuel' (statements ++ [stmt])
  end.

(** [Parser(tokens).parse()]: the cursor starts at 0.  Every iteration that
    does not leave the loop moves the cursor forward, so one more round
    than there are tokens is enough fuel. *)
Definition parse (tokens : list Token) : outcome (list Statement) :=
  obind (parse_loop (S (length tokens)) [] tokens 0) (λ r, Ok (fst r)).

End Parser.

(** ** Macro engine (C.I.A.M.S.) *)

Definition nl : string := String (Ascii.ascii_of_nat 10) "".

Module MacroExpander.

(** [stream >> word] on a [std::istringstream]: leading whitespace (the six
    characters of [isspace] in the "C" locale, [Ascii.is_space]) is skipped,
    then characters are taken up to the next whitespace or the end.  The
    extraction fails, and ends the loop of [expand], when no character
    could be taken. *)
Fixpoint skip_ws (s : string) : string :=
  match s with
  | String c s' => if Ascii.is_space c then skip_ws s' else s
  | EmptyString => EmptyString
  end.

Fixpoint read_word (s : string) : string * string :=
  match s with
  | String c s' =>
      if Ascii.is_space c then (EmptyString, s)
      else let '(word, rest) := read_word s' in (String c word, rest)
  | EmptyString => (EmptyString, EmptyString)
  end.

Definition extract (stream : string) : option (string * string) :=
  match read_word (skip_ws stream) with
  | (EmptyString, _) => None
  | (word, rest) => Some (word, rest)
  end.

(** [macros[name] = replacement]. *)
Definition define (name replacement : string) (macros : gmap string string)
  : gmap string string :=
  <[name := replacement]> macros.

(** [macros[word]] read as a value: [operator[]] of [std::unordered_map]
    inserts an empty string under a key that is absent. *)
Definition subscript (macros : gmap string string) (key : string)
  : string * gmap string string :=
  match macros !! key with
  | Some replacement => (replacement, macros)
  | None => (EmptyString, <[key := EmptyString]> macros)
  end.

(** The loop [while (stream >> word)] of [expand]; the state is the unread
    part of the stream, [result] and the table. *)
Fixpoint expand_loop (fuel : nat) (macros : gmap string string)
    (stream result : string) : outcome (string * gmap string string) :=
  match fuel with
  | 0 => OutOfFuel
  | S fuel' =>
      match extract stream with
      | None => Ok (result, macros)
      | Some (word, stream') =>
          if bool_decide (is_Some (macros !! word)) then
            let '(replacement, macros') := subscript macros word in
            expand_loop fuel' macros' stream' (result +:+ (replacement +:+ " "))
          else
            expand_loop fuel' macros stream' (result +:+ (word +:+ " "))
      end
  end.

(** [expand(input)]: the expanded text and the table after the call.  Each
    extraction consumes at least one character, so one round more than the
    length of the input is enough fuel. *)
Definition expand (macros : gmap string string) (input : string)
  : outcome (string * gmap string string) :=
  expand_loop (S (String.length input)) macros input EmptyString.

Definition loadDefaults (macros : gmap string string) : gmap string string :=
  define "|reset|" "x = 0;"
    (define "|dec|" "x = x - 1;"
      (define "|inc|" "x = x + 1;" macros)).

(** The successive values of [word] in the loop of [expand].  The fuel
    given by [words] is never used up: [words_unfold] below states the loop
    without it. *)
Fixpoint words_loop (fuel : nat) (stream : string) : list string :=
  match fuel with
  | 0 => []
  | S fuel' =>
      match extract stream with
      | None => []
      | Some (word, stream') => word :: words_loop fuel' stream'
      end
  end.

Definition words (input : string) : list string :=
  words_loop (S (String.length input)) input.

(** What one word contributes to the result, and the text made of a list
    of strings, each followed by one space. *)
Definition substitute (macros : gmap string string) (word : string) : string :=
  match macros !! word with
  | Some replacement => replacement
  | None => word
  end.

Fixpoint spaced (ws : list string) : string :=
  match ws with
  | [] => EmptyString
  | w :: ws' => (w +:+ " ") +:+ spaced ws'
  end.

(** A string that one extraction returns whole: not empty and free of
    whitespace. *)
Fixpoint no_space (s : string) : bool :=
  match s with
  | String c s' => negb (Ascii.is_space c) && no_space s'
  | EmptyString => true
  end.

Definition is_word (s : string) : bool :=
  match s with
  | EmptyString => false
  | _ => no_space s
  end.

End MacroExpander.

(** ** Semantic analyzer *)

Module SemanticAnalyzer.

Definition undeclared (name : string) : string :=
  "Semantic Error: Use of undeclared variable '" +:+ (name +:+ "'").

(** [analyzeAssignment] on the member [declared]. *)
Definition analyzeAssignment (name : string) (value : Expression)
    (declared : gset string) : outcome (gset string) :=
  let declared := {[name]} ∪ declared in
  match value with
  | IdentifierExpr id =>
      if bool_decide (id ∈ declared) then Ok declared else Throw (undeclared id)
  | _ => Ok declared
  end.

Fixpoint analyze_loop (statements : list Statement) (declared : gset string)
  : outcome (gset string) :=
  match statements with
  | [] => Ok declared
  | Assignment name value :: rest =>
      obind (analyzeAssignment name value declared) (analyze_loop rest)
  | _ :: rest => analyze_loop rest declared
  end.

(** [analyze(statements)]: [declared.clear()], then the loop.  The argument
    [declared] is the content of the member before the call. *)
Definition analyze (statements : list Statement) (declared : gset string)
  : outcome (gset string) :=
  analyze_loop statements ∅.

(** The return-placement walk (the loop that follows the class, with its
    flag [inFunction]).  The flag is declared once, outside the loop, and
    the recursive call [analyze(fn->body)] runs the same loop on the body
    while the flag is [true]; after the call the flag is set to [false].
    Statements other than [FunctionDef] and [ReturnStatement] are passed
    over.  The result is the flag after the walk. *)
Fixpoint checkStatement (stmt : Statement) (inFunction : bool) : outcome bool :=
  match stmt with
  | FunctionDef _ _ body =>
      obind
        ((fix loop (statements : list Statement) (flag : bool) : outcome bool :=
            match statements with
            | [] => Ok flag
            | s :: rest => obind (checkStatement s flag) (loop rest)
            end) body true)
        (λ _, Ok false)
  | ReturnStatement _ =>
      if inFunction then Ok inFunction
      else Throw "Return statement used outside a function."
  | _ => Ok inFunction
  end.

Fixpoint checkReturns_loop (statements : list Statement) (inFunction : bool)
  : outcome bool :=
  match statements with
  | [] => Ok inFunction
  | s :: rest => obind (checkStatement s inFunction) (checkReturns_loop rest)
  end.

Definition checkReturns (statements : list Statement) : outcome bool :=
  checkReturns_loop statements false.

End SemanticAnalyzer.

(** ** Intermediate representation emitter

    The text written to the [std::ofstream]; [writable] says whether the
    file could be opened. *)

Module IREmitter.

Definition emit_statement (out : string) (stmt : Statement) : string :=
  match stmt with
  | Assignment name value =>
      let out := out +:+ ("STORE " +:+ (name +:+ " <- ")) in
      match value with
      | NumberExpr num => out +:+ ("NUM(" +:+ (num +:+ (")" +:+ nl)))
      | IdentifierExpr id => out +:+ ("REF(" +:+ (id +:+ (")" +:+ nl)))
      | _ => out
      end
  | _ => out
  end.

Definition emit (statements : list Statement) (writable : bool) : outcome string :=
  if writable then Ok (fold_left emit_statement statements EmptyString)
  else Throw "Failed to write IR file.".

End IREmitter.

(** ** NASM code generator *)

Module NASMGenerator.

Definition data_statement (out : string) (stmt : Statement) : string :=
  match stmt with
  | Assignment name _ => out +:+ (name +:+ (" dq 0" +:+ nl))
  | _ => out
  end.

Definition text_statement (out : string) (stmt : Statement) : string :=
  match stmt with
  | Assignment name (NumberExpr num) =>
      let out := out +:+ ("    mov rax, " +:+ (num +:+ nl)) in
      out +:+ ("    mov [" +:+ (name +:+ ("], rax" +:+ nl)))
  | Assignment name (IdentifierExpr id) =>
      let out := out +:+ ("    mov rax, [" +:+ (id +:+ ("]" +:+ nl))) in
      out +:+ ("    mov [" +:+ (name +:+ ("], rax" +:+ nl)))
  | _ => out
  end.

Definition text_header : string :=
  nl +:+ ("section .text" +:+ (nl +:+ (" global _start" +:+ (nl +:+ ("_start:" +:+ nl))))).

Definition exit_sequence : string :=
  "    mov rax, 60" +:+ (nl +:+ ("    xor rdi, rdi" +:+ (nl +:+ ("    syscall" +:+ nl)))).

Definition generate (statements : list Statement) (writable : bool) : outcome string :=
  if writable then
    let out := "section .data" +:+ nl in
    let out := fold_left data_statement statements out in
    let out := out +:+ text_header in
    let out := fold_left text_statement statements out in
    Ok (out +:+ exit_sequence)
  else Throw "Failed to write ASM file.".

End NASMGenerator.

(** ** The pipeline of [main]

    The objects that outlive one run are the expander, with its table, and
    the analyzer, with its set of declared names.  [Lexer::tokenize] is not
    part of the repository: it is a variable of the section. *)

Record Compiler : Type := mkCompiler {
  macros : gmap string string;
  declared : gset string
}.

Record Artifacts : Type := mkArtifacts {
  fir : string;
  asm : string
}.

Section Pipeline.

Variable tokenize : string → list Token.

Definition compile (c : Compiler) (source : string) : outcome (Artifacts * Compiler) :=
  obind (MacroExpander.expand (macros c) source) (λ '(expanded, macros'),
  let tokens := tokenize expanded in
  obind (Parser.parse tokens) (λ statements,
  obind (SemanticAnalyzer.analyze statements (declared c)) (λ declared',
  obind (IREmitter.emit statements true) (λ ir,
  obind (NASMGenerator.generate statements true) (λ nasm,
  Ok (mkArtifacts ir nasm, mkCompiler macros' declared')))))).

(** [main] proper: a fresh expander with the default macros and a fresh
    analyzer, on the text read from the sample file.  The two output files
    are taken to be writable. *)
Definition main (source : string) : outcome (Artifacts * Compiler) :=
  compile (mkCompiler (MacroExpander.loadDefaults ∅) ∅) source.

End Pipeline.

(** ** Vocabulary of the statements below *)

(** Token vectors for the examples: line and column are those of the
    one-line source text, and do not influence parsing. *)
Definition tk (ty : TokenType.t) (lx : string) (col : Z) : Token :=
  mkToken ty lx 1 col.

(** The tokens of [x = 5; y = x; z = x + y;].  How the lexer classifies
    [+] is not known: that token is an argument. *)
Definition program_tokens (plus : Token) : list Token :=
  [tk TokenType.Identifier "x" 1; tk TokenType.Assign "=" 3;
   tk TokenType.Number "5" 5; tk TokenType.EndOfLine ";" 6;
   tk TokenType.Identifier "y" 8; tk TokenType.Assign "=" 10;
   tk TokenType.Identifier "x" 12; tk TokenType.EndOfLine ";" 13;
   tk TokenType.Identifier "z" 15; tk TokenType.Assign "=" 17;
   tk TokenType.Identifier "x" 19; plus;
   tk TokenType.Identifier "y" 23; tk TokenType.EndOfLine ";" 24;
   tk TokenType.EndOfFile "" 25].

(** The tokens of [x = 5; y = x;]. *)
Definition prefix_tokens : list Token :=
  [tk TokenType.Identifier "x" 1; tk TokenType.Assign "=" 3;
   tk TokenType.Number "5" 5; tk TokenType.EndOfLine ";" 6;
   tk TokenType.Identifier "y" 8; tk TokenType.Assign "=" 10;
   tk TokenType.Identifier "x" 12; tk TokenType.EndOfLine ";" 13;
   tk TokenType.EndOfFile "" 14].

(** The tokens of [x = 5 y = 6], written without terminators. *)
Definition unterminated_tokens : list Token :=
  [tk TokenType.Identifier "x" 1; tk TokenType.Assign "=" 3;
   tk TokenType.Number "5" 5;
   tk TokenType.Identifier "y" 7; tk TokenType.Assign "=" 9;
   tk TokenType.Number "6" 11;
   tk TokenType.EndOfFile "" 12].

(** Tables for the examples: the defaults of [loadDefaults], a macro whose
    body is another macro's name, and a macro whose body is its own name. *)
Definition default_macros : gmap string string := MacroExpander.loadDefaults ∅.

Definition nested_macros : gmap string string :=
  MacroExpander.define "|b|" "y" (MacroExpander.define "|a|" "|b|" ∅).

Definition cyclic_macros : gmap string string :=
  MacroExpander.define "|a|" "|a|" ∅.

(** What the parser reads of a token. *)
Definition token_kinds (tokens : list Token) : list (TokenType.t * string) :=
  (λ tok, (type tok, lexeme tok)) <$> tokens.

(** The tokens of an assignment whose value is a number or an identifier,
    the only values [parseExpression] builds. *)
Definition value_token (value : Expression) : option (TokenType.t * string) :=
  match value with
  | NumberExpr num => Some (TokenType.Number, num)
  | IdentifierExpr id => Some (TokenType.Identifier, id)
  | _ => None
  end.

Definition simple_assignment (stmt : Statement) : bool :=
  match stmt with
  | Assignment _ value => bool_decide (is_Some (value_token value))
  | _ => false
  end.

Definition statement_spelling (stmt : Statement) : list (TokenType.t * string) :=
  match stmt with
  | Assignment name value =>
      [(TokenType.Identifier, name); (TokenType.Assign, "=")]
        ++ option_list (value_token value)
  | _ => []
  end.

(** A program, each statement with the choice of writing its terminator. *)
Fixpoint spelling (prog : list (Statement * bool)) : list (TokenType.t * string) :=
  match prog with
  | [] => []
  | (stmt, terminated) :: rest =>
      statement_spelling stmt
        ++ (if terminated then [(TokenType.EndOfLine, ";")] else [])
        ++ spelling rest
  end.

(** The names assigned at the top level of a statement list. *)
Fixpoint assigned (statements : list Statement) : gset string :=
  match statements with
  | [] => ∅
  | Assignment name _ :: rest => {[name]} ∪ assigned rest
  | _ :: rest => assigned rest
  end.

(** [y] is the whole value of a top-level assignment to another name, and
    no earlier top-level statement assigns [y]. *)
Definition used_undeclared (statements : list Statement) (y : string) : Prop :=
  ∃ pre name post,
    statements = pre ++ (Assignment name (IdentifierExpr y) :: post)
    ∧ y ≠ name ∧ (y ∉ assigned pre).

(** The two parts of the assembly text that depend on the program. *)
Fixpoint data_lines (statements : list Statement) : string :=
  match statements with
  | [] => EmptyString
  | stmt :: rest => NASMGenerator.data_statement EmptyString stmt +:+ data_lines rest
  end.

Fixpoint entry_code (statements : list Statement) : string :=
  match statements with
  | [] => EmptyString
  | stmt :: rest => NASMGenerator.text_statement EmptyString stmt +:+ entry_code rest
  end.

(** A token vector as a lexer ends it: the last token is the end of file. *)
Definition terminated (tokens : list Token) : Prop :=
  ∃ eof, last tokens = Some eof ∧ type eof = TokenType.EndOfFile.

(** A table whose bodies come back from [expand] as they are, up to the
    space that [expand] appends. *)
Definition stable_bodies (m : gmap string string) : Prop :=
  map_Forall (λ _ body,
    MacroExpander.expand m body = Ok (body +:+ " ", m)) m.

(** A call that returns never moves the cursor back, and no call of the
    parser proper runs out of fuel. *)
Definition monotone {A : Type} (m : Parser.M A) : Prop :=
  ∀ tokens current,
    match m tokens current with
    | Ok (_, current') => current ≤ current'
    | OutOfFuel => False
    | _ => True
    end.

(** The files a run writes, without the state it leaves behind. *)
Definition artifacts_of (r : outcome (Artifacts * Compiler)) : outcome Artifacts :=
  obind r (λ p, Ok p.1).

(** ** Vocabulary of the further properties *)

(** Token vectors for the examples of the further properties: [x = 5;]
    with positions and without, [x = 5;] without its end of file,
    [x = 5; 7], [x = 5; y = ;] and [x = 5;] followed by tokens after the
    end of file. *)
Definition positioned_tokens : list Token :=
  [mkToken TokenType.Identifier "x" 3 1; mkToken TokenType.Assign "=" 3 3;
   mkToken TokenType.Number "5" 4 1; mkToken TokenType.EndOfLine ";" 4 2;
   mkToken TokenType.EndOfFile "" 5 1].

Definition unpositioned_tokens : list Token :=
  [mkToken TokenType.Identifier "x" 0 0; mkToken TokenType.Assign "=" 0 0;
   mkToken TokenType.Number "5" 0 0; mkToken TokenType.EndOfLine ";" 0 0;
   mkToken TokenType.EndOfFile "" 0 0].

Definition open_tokens : list Token :=
  [tk TokenType.Identifier "x" 1; tk TokenType.Assign "=" 3;
   tk TokenType.Number "5" 5; tk TokenType.EndOfLine ";" 6].

Definition stray_number_tokens : list Token :=
  [tk TokenType.Identifier "x" 1; tk TokenType.Assign "=" 3;
   tk TokenType.Number "5" 5; tk TokenType.EndOfLine ";" 6;
   tk TokenType.Number "7" 8; tk TokenType.EndOfFile "" 9].

Definition missing_value_tokens : list Token :=
  [tk TokenType.Identifier "x" 1; tk TokenType.Assign "=" 3;
   tk TokenType.Number "5" 5; tk TokenType.EndOfLine ";" 6;
   tk TokenType.Identifier "y" 8; tk TokenType.Assign "=" 10;
   tk TokenType.EndOfLine ";" 12; tk TokenType.EndOfFile "" 13].

Definition trailing_tokens : list Token :=
  [tk TokenType.Identifier "x" 1; tk TokenType.Assign "=" 3;
   tk TokenType.Number "5" 5; tk TokenType.EndOfLine ";" 6;
   tk TokenType.EndOfFile "" 7; tk TokenType.Symbol "+" 8;
   tk TokenType.Identifier "y" 9].

(** The expression [parseExpression] makes of one token. *)
Definition value_of_token (ty : TokenType.t) (lx : string) : option Expression :=
  match ty with
  | TokenType.Number => Some (NumberExpr lx)
  | TokenType.Identifier => Some (IdentifierExpr lx)
  | _ => None
  end.

(** One round of the loop of [parse] read as a table over the kinds of the
    four tokens at the cursor: what [parseStatement] is compared with. *)
Definition statement_at (kinds : list (TokenType.t * string)) (current : nat)
  : outcome (Statement * nat) :=
  match kinds !! current with
  | None => Undefined
  | Some (ty, name) =>
      if bool_decide (ty = TokenType.Identifier) then
        match kinds !! (current + 1) with
        | None => Undefined
        | Some (ty1, _) =>
            if bool_decide (ty1 = TokenType.Assign) then
              match kinds !! (current + 2) with
              | None => Undefined
              | Some (ty2, lx2) =>
                  match value_of_token ty2 lx2 with
                  | None => Throw "Invalid expression"
                  | Some value =>
                      match kinds !! (current + 3) with
                      | None => Undefined
                      | Some (ty3, _) =>
                          Ok (Assignment name value,
                              if bool_decide (ty3 = TokenType.EndOfLine)
                              then current + 4 else current + 3)
                      end
                  end
              end
            else Throw "Unexpected statement"
        end
      else Throw "Unexpected statement"
  end.

(** A text without any character other than whitespace. *)
Fixpoint blank (s : string) : bool :=
  match s with
  | String c s' => Ascii.is_space c && blank s'
  | EmptyString => true
  end.

(** The line of IR of an assignment of a number or an identifier, and the
    lines of a statement list. *)
Definition ir_line (stmt : Statement) : string :=
  match stmt with
  | Assignment name (NumberExpr num) =>
      "STORE " +:+ name +:+ " <- NUM(" +:+ num +:+ ")" +:+ nl
  | Assignment name (IdentifierExpr id) =>
      "STORE " +:+ name +:+ " <- REF(" +:+ id +:+ ")" +:+ nl
  | _ => EmptyString
  end.

Fixpoint ir_lines (statements : list Statement) : string :=
  match statements with
  | [] => EmptyString
  | stmt :: rest => ir_line stmt +:+ ir_lines rest
  end.

(** The assembly text of a statement list, part by part. *)
Definition asm_text (statements : list Statement) : string :=
  ("section .data" +:+ nl +:+ data_lines statements)
  +:+ (nl +:+ "section .text" +:+ nl +:+ " global _start" +:+ nl +:+ "_start:" +:+ nl)
  +:+ entry_code statements
  +:+ ("    mov rax, 60" +:+ nl +:+ "    xor rdi, rdi" +:+ nl +:+ "    syscall" +:+ nl).

(** The value of an assignment is a bare identifier. *)
Definition identifier_value (stmt : Statement) : bool :=
  match stmt with
  | Assignment _ (IdentifierExpr _) => true
  | _ => false
  end.





(** * Properties *)

(** ** Strings *)

Section Strings.

Implicit Types s t u : string.

Lemma sapp_cons c s t : String c s +:+ t = String c (s +:+ t).
Proof. reflexivity. Qed.

Lemma sapp_nil_l s : "" +:+ s = s.
Proof. reflexivity. Qed.

Lemma sapp_nil_r s : s +:+ "" = s.
Proof. induction s as [|c s IH]; [done|]. by rewrite sapp_cons, IH. Qed.

Lemma sapp_assoc s t u : (s +:+ t) +:+ u = s +:+ (t +:+ u).
Proof. induction s as [|c s IH]; [done|]. by rewrite !sapp_cons, IH. Qed.

Lemma slength_app s t : String.length (s +:+ t) = String.length s + String.length t.
Proof. induction s as [|c s IH]; [done|]. rewrite sapp_cons. simpl. by rewrite IH. Qed.

End Strings.

(** ** Macro expansion *)

Section MacroFacts.

Import MacroExpander.

Implicit Types (s w r : string) (m : gmap string string) (ws : list string).

Lemma skip_ws_length s : String.length (skip_ws s) ≤ String.length s.
Proof.
  induction s as [|c s IH]; simpl; [lia|].
  destruct (Ascii.is_space c); simpl; lia.
Qed.

Lemma read_word_length s w r :
  read_word s = (w, r) → String.length s = String.length w + String.length r.
Proof.
  revert w r. induction s as [|c s IH]; intros w r; simpl.
  - intros [= <- <-]. done.
  - destruct (Ascii.is_space c).
    + intros [= <- <-]. done.
    + destruct (read_word s) as [w' r'] eqn:E. intros [= <- <-].
      simpl. rewrite (IH w' r'); done.
Qed.

Lemma extract_Some s w r :
  extract s = Some (w, r) → read_word (skip_ws s) = (w, r) ∧ w ≠ "".
Proof.
  unfold extract. destruct (read_word (skip_ws s)) as [[|c w'] r'] eqn:E; [done|].
  intros [= <- <-]. done.
Qed.

Lemma extract_shorter s w r :
  extract s = Some (w, r) → String.length r < String.length s.
Proof.
  intros [E Hw]%extract_Some. apply read_word_length in E.
  pose proof (skip_ws_length s). destruct w; [done|]. simpl in E. lia.
Qed.

Lemma words_loop_fuel f1 f2 s :
  String.length s < f1 → String.length s < f2 → words_loop f1 s = words_loop f2 s.
Proof.
  revert f2 s. induction f1 as [|f1 IH]; intros [|f2] s H1 H2; try lia.
  simpl. destruct (extract s) as [[w r]|] eqn:E; [|done].
  apply extract_shorter in E. f_equal. apply IH; lia.
Qed.

(** The loop of extractions, without its fuel. *)
Lemma words_unfold s :
  words s = match extract s with
            | None => []
            | Some (w, r) => w :: words r
            end.
Proof.
  unfold words at 1. simpl. destruct (extract s) as [[w r]|] eqn:E; [|done].
  apply extract_shorter in E. f_equal. apply words_loop_fuel; lia.
Qed.

Lemma expand_loop_spec fuel m s result :
  String.length s < fuel →
  expand_loop fuel m s result = Ok (result +:+ spaced (substitute m <$> words s), m).
Proof.
  revert s result. induction fuel as [|fuel IH]; intros s result Hf; [lia|].
  simpl. rewrite (words_unfold s).
  destruct (extract s) as [[w r]|] eqn:E.
  - apply extract_shorter in E.
    unfold subscript, substitute. rewrite fmap_cons. simpl.
    destruct (m !! w) as [body|] eqn:Hw.
    + rewrite bool_decide_eq_true_2 by eauto.
      rewrite IH by lia. by rewrite !sapp_assoc.
    + rewrite bool_decide_eq_false_2 by (intros [? [=]]).
      rewrite IH by lia. by rewrite !sapp_assoc.
  - simpl. by rewrite sapp_nil_r.
Qed.

(** [expand] returns: it replaces each word once, and leaves the table as
    it was. *)
Lemma expand_spec m s :
  expand m s = Ok (spaced (substitute m <$> words s), m).
Proof. unfold expand. rewrite expand_loop_spec by lia. done. Qed.

(** *** Extraction from a text that continues after a whitespace *)

Lemma skip_ws_head s c s' : skip_ws s = String c s' → Ascii.is_space c = false.
Proof.
  induction s as [|x s IH]; simpl; [done|].
  destruct (Ascii.is_space x) eqn:Hx; [done|]. by intros [= <- <-].
Qed.

Lemma skip_ws_app s t :
  skip_ws (s +:+ t) = match skip_ws s with
                      | EmptyString => skip_ws t
                      | s' => s' +:+ t
                      end.
Proof.
  induction s as [|x s IH]; [reflexivity|].
  rewrite sapp_cons. simpl. destruct (Ascii.is_space x); [done|reflexivity].
Qed.

Lemma read_word_app s c t :
  Ascii.is_space c = true →
  read_word (s +:+ String c t) = ((read_word s).1, (read_word s).2 +:+ String c t).
Proof.
  intros Hc. induction s as [|x s IH].
  - simpl. rewrite sapp_nil_l. simpl. by rewrite Hc.
  - rewrite sapp_cons. simpl. destruct (Ascii.is_space x); [done|].
    rewrite IH. by destruct (read_word s).
Qed.

Lemma extract_app s c t :
  Ascii.is_space c = true →
  extract (s +:+ String c t) = match extract s with
                               | Some (w, r) => Some (w, r +:+ String c t)
                               | None => extract t
                               end.
Proof.
  intros Hc. unfold extract. rewrite skip_ws_app.
  destruct (skip_ws s) as [|x s'] eqn:Es.
  - simpl. by rewrite Hc.
  - rewrite read_word_app by done. apply skip_ws_head in Es.
    simpl. rewrite Es. by destruct (read_word s').
Qed.

Lemma words_app_space s c t :
  Ascii.is_space c = true → words (s +:+ String c t) = words s ++ words t.
Proof.
  intros Hc. remember (String.length s) as n eqn:Hn.
  revert s Hn. induction (lt_wf n) as [n _ IH]; intros s ->.
  rewrite (words_unfold (s +:+ _)), (words_unfold s), extract_app by done.
  destruct (extract s) as [[w r]|] eqn:E.
  - apply extract_shorter in E. simpl. f_equal. by eapply IH.
  - by rewrite <- words_unfold.
Qed.

(** *** Words *)

Lemma read_word_no_space s : no_space s = true → read_word s = (s, "").
Proof.
  induction s as [|c s IH]; simpl; [done|].
  destruct (Ascii.is_space c); simpl; [done|]. intros H. by rewrite IH.
Qed.

Lemma words_nil : words "" = [].
Proof. reflexivity. Qed.

Lemma words_word w : is_word w = true → words w = [w].
Proof.
  destruct w as [|c w]; [done|]. intros H. simpl in H.
  rewrite words_unfold. unfold extract.
  apply andb_prop in H as [Hc Hw]. apply negb_true_iff in Hc.
  simpl. rewrite Hc. simpl. rewrite Hc.
  rewrite read_word_no_space by done. done.
Qed.

Lemma read_word_word s w r : read_word s = (w, r) → no_space w = true.
Proof.
  revert w r. induction s as [|c s IH]; intros w r; simpl.
  - by intros [= <- <-].
  - destruct (Ascii.is_space c) eqn:Hc; [by intros [= <- <-]|].
    destruct (read_word s) as [w' r'] eqn:E. intros [= <- <-].
    simpl. rewrite Hc. simpl. by eapply IH.
Qed.

Lemma extract_word s w r : extract s = Some (w, r) → is_word w = true.
Proof.
  intros [E Hw]%extract_Some. apply read_word_word in E.
  by destruct w.
Qed.

Lemma words_are_words s : Forall (λ w, is_word w = true) (words s).
Proof.
  remember (String.length s) as n eqn:Hn.
  revert s Hn. induction (lt_wf n) as [n _ IH]; intros s ->.
  rewrite words_unfold. destruct (extract s) as [[w r]|] eqn:E; [|done].
  constructor; [by eapply extract_word|].
  apply extract_shorter in E. by eapply IH.
Qed.

Lemma spaced_app ws1 ws2 : spaced (ws1 ++ ws2) = spaced ws1 +:+ spaced ws2.
Proof.
  induction ws1 as [|w ws1 IH]; [done|]. simpl. by rewrite IH, !sapp_assoc.
Qed.

Lemma words_spaced_cons s ws : words (spaced (s :: ws)) = words s ++ words (spaced ws).
Proof. simpl. rewrite sapp_assoc. by apply words_app_space. Qed.

Lemma words_spaced ws :
  Forall (λ w, is_word w = true) ws → words (spaced ws) = ws.
Proof.
  induction 1 as [|w ws Hw _ IH]; [done|].
  by rewrite words_spaced_cons, words_word, IH.
Qed.

Lemma substitute_None m ws :
  Forall (λ w, m !! w = None) ws → substitute m <$> ws = ws.
Proof.
  induction 1 as [|w ws Hw _ IH]; [done|].
  rewrite fmap_cons, IH. unfold substitute. by rewrite Hw.
Qed.

Lemma words_spaced_concat (l : list string) :
  words (spaced l) = concat (words <$> l).
Proof.
  induction l as [|s l IH]; [done|].
  by rewrite words_spaced_cons, fmap_cons, IH.
Qed.

Lemma spaced_singleton s : spaced [s] = s +:+ " ".
Proof. simpl. by rewrite sapp_nil_r. Qed.

(** A single word as input: the result is its replacement, or the word
    itself, followed by one space. *)
Lemma expand_word m w :
  is_word w = true → expand m w = Ok (substitute m w +:+ " ", m).
Proof.
  intros Hw. rewrite expand_spec, words_word by done.
  by rewrite list_fmap_singleton, spaced_singleton.
Qed.

Lemma respaced_substitute m w :
  stable_bodies m → is_word w = true →
  spaced (substitute m <$> words (substitute m w)) = substitute m w +:+ " ".
Proof.
  intros Hm Hw. unfold substitute at 2 3.
  destruct (m !! w) as [body|] eqn:E.
  - apply Hm in E. rewrite expand_spec in E. by injection E.
  - rewrite words_word by done. rewrite list_fmap_singleton, spaced_singleton.
    unfold substitute. by rewrite E.
Qed.

Lemma respaced m ws :
  stable_bodies m → Forall (λ w, is_word w = true) ws →
  spaced (substitute m <$> words (spaced (substitute m <$> ws)))
  = spaced (substitute m <$> ws).
Proof.
  intros Hm. induction 1 as [|w ws Hw _ IH]; [done|].
  rewrite fmap_cons, words_spaced_cons, fmap_app, spaced_app, IH.
  by rewrite respaced_substitute.
Qed.

Lemma words_substitute_free m ws :
  map_Forall (λ _ body, Forall (λ w, m !! w = None) (words body)) m →
  Forall (λ w, is_word w = true) ws →
  Forall (λ w, m !! w = None) (concat (words <$> (substitute m <$> ws))).
Proof.
  intros Hm. induction 1 as [|w ws Hw _ IH]; [done|].
  rewrite !fmap_cons. simpl. apply Forall_app. split; [|done].
  unfold substitute. destruct (m !! w) as [body|] eqn:E.
  - by apply Hm in E.
  - rewrite words_word by done. by constructor.
Qed.

Lemma words_substitute_body m ws name body w :
  name ∈ ws → m !! name = Some body → w ∈ words body →
  w ∈ concat (words <$> (substitute m <$> ws)).
Proof.
  intros Hname Hbody Hw. induction ws as [|x ws IH]; [by apply elem_of_nil in Hname|].
  rewrite !fmap_cons. simpl. apply elem_of_app.
  apply elem_of_cons in Hname as [<-|Hname]; [left|right; by apply IH].
  unfold substitute. by rewrite Hbody.
Qed.

End MacroFacts.

(** ** Parser: one call at a known cursor *)

Section ParserFacts.

Import Parser.
Local Open Scope parser_scope.

Implicit Types (tokens : list Token) (current : nat) (tok : Token).

Lemma peek_at tokens current tok :
  tokens !! current = Some tok → peek tokens current = Ok (tok, current).
Proof. unfold peek, at_index. by intros ->. Qed.

Lemma previous_at tokens current tok :
  tokens !! current = Some tok →
  previous tokens (current + 1) = Ok (tok, current + 1).
Proof.
  intros H. unfold previous, at_index. rewrite Nat.add_1_r. by rewrite H.
Qed.

Lemma advance_at tokens current tok :
  tokens !! current = Some tok → type tok ≠ TokenType.EndOfFile →
  advance tokens current = Ok (tok, current + 1).
Proof.
  intros H Hty. unfold advance, isAtEnd, bind. rewrite (peek_at _ _ _ H).
  unfold ret. rewrite bool_decide_eq_false_2 by done.
  unfold incr. by apply previous_at.
Qed.

Lemma match_hit tokens current tok ty :
  tokens !! current = Some tok → type tok = ty → ty ≠ TokenType.EndOfFile →
  match_ ty tokens current = Ok (true, current + 1).
Proof.
  intros H Hty Hne. unfold match_, bind. rewrite (peek_at _ _ _ H).
  rewrite bool_decide_eq_true_2 by done.
  rewrite (advance_at _ _ _ H) by congruence. done.
Qed.

Lemma match_miss tokens current tok ty :
  tokens !! current = Some tok → type tok ≠ ty →
  match_ ty tokens current = Ok (false, current).
Proof.
  intros H Hty. unfold match_, bind. rewrite (peek_at _ _ _ H).
  by rewrite bool_decide_eq_false_2 by done.
Qed.

Lemma parseExpression_at tokens current tok value :
  tokens !! current = Some tok →
  value_token value = Some (type tok, lexeme tok) →
  parseExpression tokens current = Ok (value, current + 1).
Proof.
  intros H Hv. unfold parseExpression, bind.
  destruct value; simplify_eq/=.
  - rewrite (match_hit _ _ _ _ H) by done.
    rewrite (previous_at _ _ _ H). unfold ret. congruence.
  - rewrite (match_miss _ _ _ _ H) by congruence.
    rewrite (match_hit _ _ _ _ H) by done.
    rewrite (previous_at _ _ _ H). unfold ret. congruence.
Qed.

(** One round of the loop of [parse] on an assignment: the terminator is
    consumed when the token after the value is one, and only then. *)
Lemma parseStatement_at tokens current tn ta tv te value :
  tokens !! current = Some tn → type tn = TokenType.Identifier →
  tokens !! (current + 1) = Some ta → type ta = TokenType.Assign →
  tokens !! (current + 2) = Some tv →
  value_token value = Some (type tv, lexeme tv) →
  tokens !! (current + 3) = Some te →
  parseStatement tokens current
  = Ok (Assignment (lexeme tn) value,
        if bool_decide (type te = TokenType.EndOfLine)
        then current + 4 else current + 3).
Proof.
  intros Hn Hnt Ha Hat Hv Hvt He.
  unfold parseStatement, bind. rewrite (peek_at _ _ _ Hn).
  rewrite bool_decide_eq_true_2 by done.
  unfold at_index. rewrite Ha. simpl. rewrite bool_decide_eq_true_2 by done.
  unfold parseAssignment, bind. rewrite (peek_at _ _ _ Hn).
  rewrite (advance_at _ _ _ Hn) by congruence.
  rewrite (match_hit _ _ _ _ Ha) by done.
  replace (current + 1 + 1) with (current + 2) by lia.
  rewrite (parseExpression_at _ _ _ _ Hv Hvt).
  replace (current + 2 + 1) with (current + 3) by lia.
  case_bool_decide as Hte.
  - rewrite (match_hit _ _ _ _ He) by done.
    unfold ret. by replace (current + 3 + 1) with (current + 4) by lia.
  - by rewrite (match_miss _ _ _ _ He) by done.
Qed.

(** *** The loop of [parse] on a spelled program *)

Lemma kinds_lookup tokens current i ty lx :
  token_kinds (drop current tokens) !! i = Some (ty, lx) →
  ∃ tok, tokens !! (current + i) = Some tok ∧ type tok = ty ∧ lexeme tok = lx.
Proof.
  unfold token_kinds. rewrite list_lookup_fmap, lookup_drop.
  destruct (tokens !! (current + i)) as [tok|]; [|done].
  intros [= <- <-]. eauto.
Qed.

Lemma kinds_drop tokens current n :
  token_kinds (drop (current + n) tokens) = drop n (token_kinds (drop current tokens)).
Proof. unfold token_kinds. by rewrite <- fmap_drop, drop_drop. Qed.

Lemma spelling_head prog :
  Forall (λ p, simple_assignment p.1 = true) prog →
  ∃ ty lx rest, spelling prog ++ [(TokenType.EndOfFile, "")] = (ty, lx) :: rest
                ∧ ty ≠ TokenType.EndOfLine.
Proof.
  destruct 1 as [|[stmt terminated] prog Hs _].
  - by eexists _, _, _.
  - destruct stmt; try done. simpl. by eexists _, _, _.
Qed.

Lemma isAtEnd_at tokens current tok :
  tokens !! current = Some tok →
  isAtEnd tokens current = Ok (bool_decide (type tok = TokenType.EndOfFile), current).
Proof. intros H. unfold isAtEnd, bind. by rewrite (peek_at _ _ _ H). Qed.

Lemma parse_loop_spelling prog :
  Forall (λ p, simple_assignment p.1 = true) prog →
  ∀ fuel statements tokens current,
    token_kinds (drop current tokens) = spelling prog ++ [(TokenType.EndOfFile, "")] →
    length prog < fuel →
    ∃ current', parse_loop fuel statements tokens current
                = Ok (statements ++ prog.*1, current').
Proof.
  induction 1 as [|[stmt terminated] prog Hs Hprog IH];
    intros [|fuel] statements tokens current Hk Hf; simpl in Hf; try lia.
  - destruct (kinds_lookup tokens current 0 TokenType.EndOfFile "")
      as (tok & Htok & Hty & _); [by rewrite Hk|].
    rewrite Nat.add_0_r in Htok.
    exists current. simpl. unfold bind. rewrite (isAtEnd_at _ _ _ Htok).
    rewrite bool_decide_eq_true_2 by done. unfold ret. by rewrite app_nil_r.
  - destruct stmt as [name value| | | | | | |]; try done.
    simpl in Hs. apply bool_decide_eq_true_1 in Hs as [[vty vlx] Hvalue].
    destruct (spelling_head prog Hprog) as (hty & hlx & hrest & Hhead & Hne).
    simpl in Hk. rewrite Hvalue in Hk. simpl in Hk.
    destruct (kinds_lookup tokens current 0 TokenType.Identifier name)
      as (tn & Hn & Hnt & Hnl); [by rewrite Hk|].
    destruct (kinds_lookup tokens current 1 TokenType.Assign "=")
      as (ta & Ha & Hat & _); [by rewrite Hk|].
    destruct (kinds_lookup tokens current 2 vty vlx)
      as (tv & Hv & Hvt & Hvl); [by rewrite Hk|].
    rewrite Nat.add_0_r in Hn.
    assert (value_token value = Some (type tv, lexeme tv)) as Hvalue'
      by (by rewrite Hvt, Hvl).
    simpl. unfold bind at 1. rewrite (isAtEnd_at _ _ _ Hn).
    rewrite bool_decide_eq_false_2 by congruence.
    unfold bind at 1.
    destruct terminated.
    + destruct (kinds_lookup tokens current 3 TokenType.EndOfLine ";")
        as (te & He & Het & _); [by rewrite Hk|].
      rewrite (parseStatement_at _ _ _ _ _ _ _ Hn Hnt Ha Hat Hv Hvalue' He).
      rewrite bool_decide_eq_true_2 by done.
      destruct (IH fuel (statements ++ [Assignment (lexeme tn) value]) tokens
                  (current + 4)) as [current' Hloop]; [|lia|].
      { rewrite kinds_drop, Hk. done. }
      exists current'. rewrite Hloop. rewrite Hnl. simpl.
      by rewrite <- app_assoc.
    + simpl in Hk. rewrite Hhead in Hk.
      destruct (kinds_lookup tokens current 3 hty hlx)
        as (te & He & Het & _); [by rewrite Hk|].
      rewrite (parseStatement_at _ _ _ _ _ _ _ Hn Hnt Ha Hat Hv Hvalue' He).
      rewrite bool_decide_eq_false_2 by congruence.
      destruct (IH fuel (statements ++ [Assignment (lexeme tn) value]) tokens
                  (current + 3)) as [current' Hloop]; [|lia|].
      { rewrite kinds_drop, Hk, Hhead. done. }
      exists current'. rewrite Hloop. rewrite Hnl. simpl.
      by rewrite <- app_assoc.
Qed.

Lemma spelling_length prog :
  Forall (λ p, simple_assignment p.1 = true) prog →
  length prog ≤ length (spelling prog).
Proof.
  induction 1 as [|[stmt terminated] prog Hs _ IH]; [done|].
  destruct stmt; try done. simpl. rewrite !length_app. simpl. lia.
Qed.

(** *** The loop of [parse] ends *)

Lemma monotone_ret {A : Type} (a : A) : monotone (ret a).
Proof. intros tokens current. simpl. lia. Qed.

Lemma monotone_throw {A : Type} what : monotone (@throw A what).
Proof. by intros tokens current. Qed.

Lemma monotone_bind {A B : Type} (m : M A) (f : A → M B) :
  monotone m → (∀ a, monotone (f a)) → monotone (bind m f).
Proof.
  intros Hm Hf tokens current. unfold bind.
  specialize (Hm tokens current).
  destruct (m tokens current) as [[a current']| | |]; try done.
  specialize (Hf a tokens current').
  destruct (f a tokens current') as [[b current'']| | |]; try done. lia.
Qed.

Lemma monotone_peek : monotone peek.
Proof.
  intros tokens current. unfold peek, at_index.
  destruct (tokens !! current); simpl; [lia|done].
Qed.

Lemma monotone_previous : monotone previous.
Proof.
  intros tokens [|p]; unfold previous, at_index; [done|].
  destruct (tokens !! p); simpl; [lia|done].
Qed.

Lemma monotone_incr : monotone incr.
Proof. intros tokens current. simpl. lia. Qed.

Lemma monotone_isAtEnd : monotone isAtEnd.
Proof.
  apply monotone_bind; [apply monotone_peek|]. intros tok. apply monotone_ret.
Qed.

Lemma monotone_advance : monotone advance.
Proof.
  apply monotone_bind; [apply monotone_isAtEnd|]. intros atEnd.
  apply monotone_bind; [|intros _; apply monotone_previous].
  destruct atEnd; [apply monotone_ret|apply monotone_incr].
Qed.

Lemma monotone_match ty : monotone (match_ ty).
Proof.
  apply monotone_bind; [apply monotone_peek|]. intros tok.
  case_bool_decide; [|apply monotone_ret].
  apply monotone_bind; [apply monotone_advance|]. intros _. apply monotone_ret.
Qed.

Lemma monotone_parseExpression : monotone parseExpression.
Proof.
  apply monotone_bind; [apply monotone_match|]. intros [|].
  { apply monotone_bind; [apply monotone_previous|]. intros ?. apply monotone_ret. }
  apply monotone_bind; [apply monotone_match|]. intros [|].
  { apply monotone_bind; [apply monotone_previous|]. intros ?. apply monotone_ret. }
  apply monotone_throw.
Qed.

(** A round of the loop that returns has moved the cursor: the statement
    starts with an identifier, which [advance] steps over. *)
Lemma parseStatement_progress tokens current :
  match parseStatement tokens current with
  | Ok (_, current') => current < current'
  | OutOfFuel => False
  | _ => True
  end.
Proof.
  unfold parseStatement, bind at 1, peek, at_index.
  destruct (tokens !! current) as [tok|] eqn:Htok; simpl; [|done].
  case_bool_decide as Hty; [|done].
  destruct (tokens !! (current + 1)) as [next|]; simpl; [|done].
  case_bool_decide; [|done].
  unfold parseAssignment, bind at 1. rewrite (peek_at _ _ _ Htok).
  unfold bind at 1. rewrite (advance_at _ _ _ Htok) by congruence.
  match goal with
  | |- match ?f tokens (current + 1) with _ => _ end =>
      assert (monotone f) as Hrest
  end.
  { apply monotone_bind; [apply monotone_match|]. intros _.
    apply monotone_bind; [apply monotone_parseExpression|]. intros expr.
    apply monotone_bind; [apply monotone_match|]. intros _. apply monotone_ret. }
  specialize (Hrest tokens (current + 1)). simpl in Hrest.
  match goal with
  | |- match ?r with _ => _ end => destruct r as [[stmt current']| | |]
  end; try done. lia.
Qed.

Lemma parse_loop_total fuel statements tokens current :
  length tokens - current < fuel →
  parse_loop fuel statements tokens current ≠ OutOfFuel.
Proof.
  revert statements current.
  induction fuel as [|fuel IH]; intros statements current Hf; [lia|].
  simpl. unfold bind at 1. unfold isAtEnd, bind, peek, at_index, ret.
  destruct (tokens !! current) as [tok|] eqn:Htok; simpl; [|done].
  apply lookup_lt_Some in Htok.
  case_bool_decide; [done|].
  unfold bind. pose proof (parseStatement_progress tokens current) as Hp.
  destruct (parseStatement tokens current) as [[stmt current']| | |]; try done.
  apply IH. lia.
Qed.

Lemma parse_total tokens : parse tokens ≠ OutOfFuel.
Proof.
  unfold parse. pose proof (parse_loop_total (S (length tokens)) [] tokens 0) as H.
  destruct (parse_loop _ _ _ _); simpl; try done.
  intros _. apply H; [lia|done].
Qed.

(** *** No subscript out of range on a terminated vector *)

Lemma next_in_range tokens current tok :
  terminated tokens → tokens !! current = Some tok →
  type tok ≠ TokenType.EndOfFile → is_Some (tokens !! (current + 1)).
Proof.
  intros (eof & Hlast & Heof) Htok Hty. apply lookup_lt_is_Some.
  pose proof (lookup_lt_Some _ _ _ Htok) as Hlt.
  destruct (decide (current + 1 = length tokens)) as [Hend|]; [|lia].
  rewrite last_lookup in Hlast.
  replace (pred (length tokens)) with current in Hlast by lia. congruence.
Qed.

Lemma match_cases tokens current tok ty :
  terminated tokens → tokens !! current = Some tok → ty ≠ TokenType.EndOfFile →
  (match_ ty tokens current = Ok (true, current + 1)
   ∧ type tok = ty ∧ is_Some (tokens !! (current + 1)))
  ∨ (match_ ty tokens current = Ok (false, current) ∧ type tok ≠ ty).
Proof.
  intros Hterm Htok Hty. destruct (decide (type tok = ty)) as [Heq|Hne].
  - left. split_and!; [by eapply match_hit|done|].
    eapply next_in_range; [done..|congruence].
  - right. split; [by eapply match_miss|done].
Qed.

Lemma parseExpression_cases tokens current :
  terminated tokens → is_Some (tokens !! current) →
  (∃ expr, parseExpression tokens current = Ok (expr, current + 1)
           ∧ is_Some (tokens !! (current + 1)))
  ∨ parseExpression tokens current = Throw "Invalid expression".
Proof.
  intros Hterm [tok Htok]. unfold parseExpression, bind.
  destruct (match_cases tokens current tok TokenType.Number Hterm Htok)
    as [(-> & _ & Hnext)|(-> & _)]; [done| |].
  { left. rewrite (previous_at _ _ _ Htok). by eexists. }
  destruct (match_cases tokens current tok TokenType.Identifier Hterm Htok)
    as [(-> & _ & Hnext)|(-> & _)]; [done| |].
  { left. rewrite (previous_at _ _ _ Htok). by eexists. }
  by right.
Qed.

Lemma parseStatement_in_range tokens current :
  terminated tokens → is_Some (tokens !! current) →
  match parseStatement tokens current with
  | Ok (_, current') => is_Some (tokens !! current')
  | Throw _ => True
  | _ => False
  end.
Proof.
  intros Hterm [tok Htok]. unfold parseStatement, bind at 1.
  rewrite (peek_at _ _ _ Htok).
  case_bool_decide as Hty; [|done].
  destruct (next_in_range tokens current tok Hterm Htok) as [next Hnext];
    [congruence|].
  unfold at_index. rewrite Hnext. simpl.
  case_bool_decide as Hnty; [|done].
  unfold parseAssignment, bind at 1. rewrite (peek_at _ _ _ Htok).
  unfold bind at 1. rewrite (advance_at _ _ _ Htok) by congruence.
  unfold bind at 1. rewrite (match_hit _ _ _ _ Hnext) by done.
  destruct (next_in_range tokens (current + 1) next Hterm Hnext) as [tv Htv];
    [congruence|].
  unfold bind at 1.
  destruct (parseExpression_cases tokens (current + 1 + 1) Hterm)
    as [(expr & -> & [te Hte])| ->]; [by eexists| |done].
  unfold bind.
  destruct (match_cases tokens (current + 1 + 1 + 1) te TokenType.EndOfLine Hterm Hte)
    as [(-> & _ & Hafter)|(-> & _)]; [done| |]; simpl; eauto.
Qed.

Lemma parse_loop_defined fuel statements tokens current :
  terminated tokens → is_Some (tokens !! current) →
  length tokens - current < fuel →
  match parse_loop fuel statements tokens current with
  | Ok _ | Throw _ => True
  | _ => False
  end.
Proof.
  intros Hterm. revert statements current.
  induction fuel as [|fuel IH]; intros statements current [tok Htok] Hf; [lia|].
  simpl. unfold bind at 1. rewrite (isAtEnd_at _ _ _ Htok).
  case_bool_decide; [done|].
  unfold bind.
  pose proof (parseStatement_progress tokens current) as Hprogress.
  pose proof (parseStatement_in_range tokens current Hterm) as Hrange.
  destruct (parseStatement tokens current) as [[stmt current']|what| |]; simpl.
  - apply IH; [by apply Hrange; eexists|]. apply lookup_lt_Some in Htok. lia.
  - done.
  - apply Hrange. by eexists.
  - done.
Qed.

(** X3: on a token vector whose last token is the end of file, [parse]
    never subscripts the vector out of range: it returns the statements
    or throws. *)
Lemma parse_defined tokens :
  terminated tokens →
  (∃ statements, parse tokens = Ok statements) ∨ (∃ what, parse tokens = Throw what).
Proof.
  intros Hterm. unfold parse.
  pose proof (parse_loop_defined (S (length tokens)) [] tokens 0 Hterm) as H.
  destruct (parse_loop _ _ _ _) as [r|what| |]; simpl.
  - left. by eexists.
  - right. by eexists.
  - exfalso. apply H; [|lia].
    destruct Hterm as (eof & Hlast & _). destruct tokens; [done|]. by eexists.
  - exfalso. apply H; [|lia].
    destruct Hterm as (eof & Hlast & _). destruct tokens; [done|]. by eexists.
Qed.

End ParserFacts.

(** ** Semantic analysis *)

Section AnalyzerFacts.

Import SemanticAnalyzer.

Implicit Types (statements pre post : list Statement) (declared : gset string).

Lemma analyze_loop_app pre post declared :
  analyze_loop (pre ++ post) declared
  = obind (analyze_loop pre declared) (analyze_loop post).
Proof.
  revert declared. induction pre as [|stmt pre IH]; intros declared; [done|].
  destruct stmt as [name value| | | | | | |]; simpl; try apply IH.
  destruct (analyzeAssignment name value declared); simpl; [apply IH|done..].
Qed.

Lemma analyzeAssignment_Ok name value declared declared' :
  analyzeAssignment name value declared = Ok declared' →
  declared' = {[name]} ∪ declared.
Proof.
  unfold analyzeAssignment.
  destruct value; try (by intros [= <-]). case_bool_decide; [|done].
  by intros [= <-].
Qed.

(** The set left by a successful analysis: the names assigned, added to
    the set the loop started from. *)
Lemma analyze_loop_Ok statements declared declared' :
  analyze_loop statements declared = Ok declared' →
  declared' = assigned statements ∪ declared.
Proof.
  revert declared. induction statements as [|stmt statements IH]; intros declared.
  - simpl. intros [= <-]. set_solver.
  - destruct stmt as [name value| | | | | | |]; simpl; try apply IH.
    destruct (analyzeAssignment name value declared) as [d| | |] eqn:E; try done.
    simpl. intros H%IH. apply analyzeAssignment_Ok in E. set_solver.
Qed.

(** The loop ends in a set or in the error of [analyzeAssignment], which
    names an identifier that was read before any assignment to it. *)
Lemma analyze_loop_cases statements declared :
  (∃ declared', analyze_loop statements declared = Ok declared')
  ∨ (∃ pre name z post,
        statements = pre ++ (Assignment name (IdentifierExpr z) :: post)
        ∧ z ≠ name ∧ (z ∉ assigned pre ∪ declared)
        ∧ analyze_loop statements declared = Throw (undeclared z)).
Proof.
  revert declared. induction statements as [|stmt statements IH]; intros declared.
  { left. by eexists. }
  assert (∀ d, (∀ pre, assigned (stmt :: pre) ∪ declared = assigned pre ∪ d) →
               analyze_loop (stmt :: statements) declared = analyze_loop statements d →
               (∃ declared', analyze_loop (stmt :: statements) declared = Ok declared')
               ∨ (∃ pre name z post,
                    stmt :: statements = pre ++ (Assignment name (IdentifierExpr z) :: post)
                    ∧ z ≠ name ∧ (z ∉ assigned pre ∪ declared)
                    ∧ analyze_loop (stmt :: statements) declared = Throw (undeclared z)))
    as Hskip.
  { intros d Hd Heq. rewrite Heq.
    destruct (IH d) as [?|(pre & name & z & post & -> & Hne & Hz & Hthrow)]; [by left|].
    right. exists (stmt :: pre), name, z, post. rewrite Hd. done. }
  destruct stmt as [name value| | | | | | |];
    try (apply (Hskip declared); [done|done]).
  destruct value as [num|id| | | |];
    try (apply (Hskip ({[name]} ∪ declared)); [intros; simpl; set_solver|done]).
  destruct (decide (id ∈ {[name]} ∪ declared)) as [Hid|Hid].
  - apply (Hskip ({[name]} ∪ declared)); [intros; simpl; set_solver|].
    simpl. unfold analyzeAssignment. by rewrite bool_decide_eq_true_2.
  - right. exists [], name, id, statements. simpl. unfold analyzeAssignment.
    rewrite bool_decide_eq_false_2 by done. split_and!; [done|set_solver..|done].
Qed.

Lemma sapp_quote_inj s t : s +:+ "'" = t +:+ "'" → s = t.
Proof.
  revert t. induction s as [|c s IH]; intros [|d t]; rewrite ?sapp_cons, ?sapp_nil_l.
  - done.
  - intros [= _ H]. by destruct t.
  - intros [= _ H]. by destruct s.
  - intros [= -> H]. f_equal. by apply IH.
Qed.

(** The message names its identifier. *)
Lemma undeclared_inj y z : undeclared y = undeclared z → y = z.
Proof.
  unfold undeclared. intros H%(inj (String.app _)). by apply sapp_quote_inj.
Qed.

(** *** The return-placement walk *)

Lemma checkReturns_top_level returnValue rest :
  checkReturns (ReturnStatement returnValue :: rest)
  = Throw "Return statement used outside a function.".
Proof. reflexivity. Qed.

Lemma checkReturns_in_function name params returnValue :
  checkReturns [FunctionDef name params [ReturnStatement returnValue]] = Ok false.
Proof. reflexivity. Qed.

End AnalyzerFacts.

(** ** Emitted text *)

Section EmitterFacts.

Import NASMGenerator.

Implicit Types (statements : list Statement) (out : string).

Lemma data_statement_out out stmt :
  data_statement out stmt = out +:+ data_statement "" stmt.
Proof.
  destruct stmt; simpl; by rewrite ?sapp_nil_r.
Qed.

Lemma text_statement_out out stmt :
  text_statement out stmt = out +:+ text_statement "" stmt.
Proof.
  destruct stmt as [name value| | | | | | |]; simpl; rewrite ?sapp_nil_r; try done.
  destruct value; simpl; rewrite ?sapp_nil_r, ?sapp_assoc; done.
Qed.

Lemma fold_data_lines statements out :
  fold_left data_statement statements out = out +:+ data_lines statements.
Proof.
  revert out. induction statements as [|stmt statements IH]; intros out; simpl.
  - by rewrite sapp_nil_r.
  - by rewrite IH, data_statement_out, sapp_assoc.
Qed.

Lemma fold_entry_code statements out :
  fold_left text_statement statements out = out +:+ entry_code statements.
Proof.
  revert out. induction statements as [|stmt statements IH]; intros out; simpl.
  - by rewrite sapp_nil_r.
  - by rewrite IH, text_statement_out, sapp_assoc.
Qed.





End EmitterFacts.

(** * The specification, statement by statement *)

(** A closed instance of [expand]: the words are computed, the table is
    only looked up. *)
Ltac expand_eval :=
  rewrite expand_spec; do 2 f_equal; vm_compute; reflexivity.

(** ** The stages on small inputs *)

Example parse_one_assignment :
  Parser.parse [tk TokenType.Identifier "x" 1; tk TokenType.Assign "=" 3;
                tk TokenType.Number "5" 5; tk TokenType.EndOfLine ";" 6;
                tk TokenType.EndOfFile "" 7]
  = Ok [Assignment "x" (NumberExpr "5")].
Proof. reflexivity. Qed.

Example expand_twice_inc :
  MacroExpander.expand (MacroExpander.loadDefaults ∅) "y = 1; |inc| |inc|"
  = Ok ("y = 1; x = x + 1; x = x + 1; ", MacroExpander.loadDefaults ∅).
Proof. expand_eval. Qed.

Example generate_one_assignment :
  NASMGenerator.generate [Assignment "x" (NumberExpr "5")] true
  = Ok ("section .data" +:+ nl +:+ "x dq 0" +:+ nl +:+ nl +:+ "section .text" +:+ nl
        +:+ " global _start" +:+ nl +:+ "_start:" +:+ nl
        +:+ "    mov rax, 5" +:+ nl +:+ "    mov [x], rax" +:+ nl
        +:+ "    mov rax, 60" +:+ nl +:+ "    xor rdi, rdi" +:+ nl +:+ "    syscall" +:+ nl).
Proof. reflexivity. Qed.

(** ** Parser and IR emitter *)

(** C1, as stated, fails: with [+] lexed as a symbol, parsing
    [x = 5; y = x; z = x + y;] throws "Unexpected statement" instead of
    producing three Assignment nodes. *)
Lemma parse_sum_rejected :
  Parser.parse (program_tokens (tk TokenType.Symbol "+" 21))
  = Throw "Unexpected statement".
Proof. reflexivity. Qed.

(** C1, amended: whatever token the lexer makes of [+], parsing
    [x = 5; y = x; z = x + y;] throws "Unexpected statement" (unless [+]
    were lexed as the end of file, which cuts the program to the three
    assignments [x = 5], [y = x], [z = x]); no sum is ever built.  The
    first two statements [x = 5; y = x;] parse to exactly two Assignment
    nodes, which the IR emitter lowers, in order, to [STORE x <- NUM(5)]
    and [STORE y <- REF(x)]. *)
Theorem parse_emit_assignments (plus : Token) :
  Parser.parse (program_tokens plus)
  = (if bool_decide (type plus = TokenType.EndOfFile)
     then Ok [Assignment "x" (NumberExpr "5"); Assignment "y" (IdentifierExpr "x");
              Assignment "z" (IdentifierExpr "x")]
     else Throw "Unexpected statement")
  ∧ Parser.parse prefix_tokens
    = Ok [Assignment "x" (NumberExpr "5"); Assignment "y" (IdentifierExpr "x")]
  ∧ IREmitter.emit
      [Assignment "x" (NumberExpr "5"); Assignment "y" (IdentifierExpr "x")] true
    = Ok ("STORE x <- NUM(5)" +:+ nl +:+ "STORE y <- REF(x)" +:+ nl).
Proof.
  split; [|split; reflexivity].
  destruct plus as [ty lx l c]. destruct ty; reflexivity.
Qed.

(** C10: the terminator after an assignment is optional.  A token vector
    that spells a list of assignments of numbers and identifiers, each
    with or without its end-of-line token, and ends in the end-of-file
    token, parses to exactly these assignments; so does [x = 5 y = 6],
    written without any end-of-line token. *)
Theorem parse_terminator_optional (prog : list (Statement * bool)) (tokens : list Token) :
  Forall (λ p, simple_assignment p.1 = true) prog →
  token_kinds tokens = spelling prog ++ [(TokenType.EndOfFile, "")] →
  Parser.parse tokens = Ok (prog.*1).
Proof.
  intros Hprog Hk. unfold Parser.parse.
  destruct (parse_loop_spelling prog Hprog (S (length tokens)) [] tokens 0)
    as [current' ->]; [done| |done].
  pose proof (spelling_length prog Hprog) as Hlen.
  apply (f_equal length) in Hk. unfold token_kinds in Hk.
  rewrite length_fmap, length_app in Hk. simpl in Hk. lia.
Qed.

Lemma parse_terminator_optional_witness :
  Forall (λ p, simple_assignment p.1 = true)
    [(Assignment "x" (NumberExpr "5"), false); (Assignment "y" (NumberExpr "6"), false)]
  ∧ token_kinds unterminated_tokens
    = spelling [(Assignment "x" (NumberExpr "5"), false);
                (Assignment "y" (NumberExpr "6"), false)]
      ++ [(TokenType.EndOfFile, "")]
  ∧ Parser.parse unterminated_tokens
    = Ok [Assignment "x" (NumberExpr "5"); Assignment "y" (NumberExpr "6")].
Proof.
  assert (Forall (λ p, simple_assignment p.1 = true)
            [(Assignment "x" (NumberExpr "5"), false);
             (Assignment "y" (NumberExpr "6"), false)]) as Hprog
    by (repeat constructor).
  split; [exact Hprog|]. split; [reflexivity|].
  exact (parse_terminator_optional _ unterminated_tokens Hprog eq_refl).
Defined.

(** ** Macro expander *)

(** C2, as stated, fails: the body of [|a|] invokes [|b|], and expanding
    [|a|] returns the text [|b| ], whose only word is still the name of a
    macro of the table. *)
Lemma expand_nested_residue :
  MacroExpander.expand nested_macros "|a|" = Ok ("|b| ", nested_macros)
  ∧ MacroExpander.words "|b| " = ["|b|"]
  ∧ nested_macros !! "|b|" = Some "y".
Proof. split; [expand_eval|]. split; vm_compute; reflexivity. Qed.

(** C2, amended: expansion is one pass over the words of the input, with
    no repetition and no pass limit.  For every table and every input the
    result is the words of the input in order, each followed by one space,
    a word that names a macro being replaced by the body of the macro as
    it stands and every other word copied.  Every word of a body that was
    substituted is a word of the output, so an invocation inside a body
    stays in the output; the output holds no word that names a macro when
    no body of the table holds one. *)
Theorem expand_single_pass (m : gmap string string) (input : string) :
  MacroExpander.expand m input
  = Ok (MacroExpander.spaced
          (MacroExpander.substitute m <$> MacroExpander.words input), m)
  ∧ (∀ name body w,
       name ∈ MacroExpander.words input → m !! name = Some body →
       w ∈ MacroExpander.words body →
       w ∈ MacroExpander.words
             (MacroExpander.spaced
                (MacroExpander.substitute m <$> MacroExpander.words input)))
  ∧ (map_Forall (λ _ body, Forall (λ w, m !! w = None) (MacroExpander.words body)) m →
     Forall (λ w, m !! w = None)
       (MacroExpander.words
          (MacroExpander.spaced
             (MacroExpander.substitute m <$> MacroExpander.words input)))).
Proof.
  split; [apply expand_spec|]. rewrite words_spaced_concat. split.
  - intros name body w Hname Hbody Hw. by eapply words_substitute_body.
  - intros Hm. apply words_substitute_free; [done|]. apply words_are_words.
Qed.

Lemma default_macros_flat :
  map_Forall (λ _ body,
    Forall (λ w, default_macros !! w = None) (MacroExpander.words body))
    default_macros.
Proof.
  unfold default_macros at 2, MacroExpander.loadDefaults, MacroExpander.define.
  repeat (apply map_Forall_insert_2;
          [repeat (constructor; [vm_compute; reflexivity|]); constructor|]).
  apply map_Forall_empty.
Defined.

Lemma expand_single_pass_witness :
  MacroExpander.expand nested_macros "|a| z" = Ok ("|b| z ", nested_macros)
  ∧ ("|a|" ∈ MacroExpander.words "|a| z"
     ∧ nested_macros !! "|a|" = Some "|b|"
     ∧ "|b|" ∈ MacroExpander.words "|b|"
     ∧ "|b|" ∈ MacroExpander.words "|b| z ")
  ∧ Forall (λ w, default_macros !! w = None)
      (MacroExpander.words
         (MacroExpander.spaced
            (MacroExpander.substitute default_macros
               <$> MacroExpander.words "|inc| |dec|"))).
Proof.
  assert ("|a|" ∈ MacroExpander.words "|a| z") as Hname
    by (vm_compute; constructor).
  assert (nested_macros !! "|a|" = Some "|b|") as Hbody
    by (vm_compute; reflexivity).
  assert ("|b|" ∈ MacroExpander.words "|b|") as Hword
    by (vm_compute; constructor).
  split; [|split].
  - exact (proj1 (expand_single_pass nested_macros "|a| z")).
  - split; [exact Hname|]. split; [exact Hbody|]. split; [exact Hword|].
    exact (proj1 (proj2 (expand_single_pass nested_macros "|a| z"))
             "|a|" "|b|" "|b|" Hname Hbody Hword).
  - exact (proj2 (proj2 (expand_single_pass default_macros "|inc| |dec|"))
             default_macros_flat).
Defined.

(** C3, as stated, fails on both counts: [x = 5;] holds no macro
    invocation and comes back with a space appended; and with a macro
    whose body names another macro, expanding the result of an expansion
    changes it again. *)
Lemma expand_not_fixed_point :
  MacroExpander.expand default_macros "x = 5;" = Ok ("x = 5; ", default_macros)
  ∧ "x = 5; " ≠ "x = 5;"
  ∧ MacroExpander.expand nested_macros "|a|" = Ok ("|b| ", nested_macros)
  ∧ MacroExpander.expand nested_macros "|b| " = Ok ("y ", nested_macros).
Proof. split_and!; [expand_eval|discriminate|expand_eval..]. Qed.

(** C3, amended: for every input text containing no macro invocations,
    [expand] returns the words of the text in order, each followed by one
    space; the text comes back unchanged when it already has this form.
    When every body of the table comes back from [expand] as it is, up to
    the appended space (the default table is such a table), expanding the
    result of an expansion returns it unchanged. *)
Theorem expand_fixed_point (m : gmap string string) (input : string) :
  (Forall (λ w, m !! w = None) (MacroExpander.words input) →
     MacroExpander.expand m input
     = Ok (MacroExpander.spaced (MacroExpander.words input), m))
  ∧ (∀ ws, Forall (λ w, MacroExpander.is_word w = true) ws →
           Forall (λ w, m !! w = None) ws →
           MacroExpander.expand m (MacroExpander.spaced ws)
           = Ok (MacroExpander.spaced ws, m))
  ∧ (map_Forall (λ _ body, MacroExpander.expand m body = Ok (body +:+ " ", m)) m →
     ∀ result m', MacroExpander.expand m input = Ok (result, m') →
                  MacroExpander.expand m' result = Ok (result, m')).
Proof.
  split; [|split].
  - intros Hfree. by rewrite expand_spec, substitute_None.
  - intros ws Hws Hfree. by rewrite expand_spec, words_spaced, substitute_None.
  - intros Hm result m'. rewrite expand_spec. intros [= <- <-].
    rewrite expand_spec. f_equal. f_equal. apply respaced; [done|].
    apply words_are_words.
Qed.

Lemma default_macros_stable :
  map_Forall (λ _ body,
    MacroExpander.expand default_macros body = Ok (body +:+ " ", default_macros))
    default_macros.
Proof.
  unfold default_macros at 3, MacroExpander.loadDefaults, MacroExpander.define.
  repeat (apply map_Forall_insert_2; [expand_eval|]).
  apply map_Forall_empty.
Defined.

Lemma expand_fixed_point_witness :
  Forall (λ w, default_macros !! w = None) (MacroExpander.words "y = 1;")
  ∧ MacroExpander.expand default_macros "y = 1;" = Ok ("y = 1; ", default_macros)
  ∧ MacroExpander.expand default_macros "y = 1; |inc|"
    = Ok ("y = 1; x = x + 1; ", default_macros)
  ∧ MacroExpander.expand default_macros "y = 1; x = x + 1; "
    = Ok ("y = 1; x = x + 1; ", default_macros)
  ∧ MacroExpander.expand default_macros (MacroExpander.spaced ["y"; "="; "1;"])
    = Ok (MacroExpander.spaced ["y"; "="; "1;"], default_macros).
Proof.
  assert (Forall (λ w, default_macros !! w = None) (MacroExpander.words "y = 1;"))
    as Hfree by (repeat (constructor; [vm_compute; reflexivity|]); constructor).
  assert (Forall (λ w, MacroExpander.is_word w = true) ["y"; "="; "1;"])
    as Hwords by (repeat constructor).
  split; [exact Hfree|].
  split; [exact (proj1 (expand_fixed_point default_macros "y = 1;") Hfree)|].
  apply and_assoc. split;
    [|exact (proj1 (proj2 (expand_fixed_point default_macros ""))
               ["y"; "="; "1;"] Hwords Hfree)].
  assert (MacroExpander.expand default_macros "y = 1; |inc|"
          = Ok ("y = 1; x = x + 1; ", default_macros)) as Hfirst by expand_eval.
  split; [exact Hfirst|].
  exact (proj2 (proj2 (expand_fixed_point default_macros "y = 1; |inc|"))
           default_macros_stable _ _ Hfirst).
Defined.

(** C4, as stated, fails: no call of the macro engine ends in an error.
    Defining [|inc|] a second time replaces its body; expanding a macro
    whose body is its own name returns that name; a word that names no
    macro is copied. *)
Lemma macro_errors_absent :
  MacroExpander.define "|inc|" "x = 0;" default_macros !! "|inc|" = Some "x = 0;"
  ∧ MacroExpander.expand cyclic_macros "|a|" = Ok ("|a| ", cyclic_macros)
  ∧ MacroExpander.expand default_macros "|undefined|"
    = Ok ("|undefined| ", default_macros).
Proof. split_and!; [vm_compute; reflexivity|expand_eval..]. Qed.

(** C4, amended: macro processing never fails.  [expand] returns a text
    for every table and input and leaves the table as it was; a word that
    names no macro (an unresolved invocation) is copied to the output and
    a macro whose body is its own name is replaced by that name, once;
    [define] on a name that is already defined keeps the last body. *)
Theorem macro_processing_total (m : gmap string string) :
  (∀ input, ∃ result, MacroExpander.expand m input = Ok (result, m))
  ∧ (∀ w, MacroExpander.is_word w = true → m !! w = None →
          MacroExpander.expand m w = Ok (w +:+ " ", m))
  ∧ (∀ w, MacroExpander.is_word w = true → m !! w = Some w →
          MacroExpander.expand m w = Ok (w +:+ " ", m))
  ∧ (∀ name first second,
       MacroExpander.define name second (MacroExpander.define name first m)
       = MacroExpander.define name second m
       ∧ MacroExpander.define name second (MacroExpander.define name first m) !! name
         = Some second).
Proof.
  split_and!.
  - intros input. eexists. apply expand_spec.
  - intros w Hw Hnone. rewrite expand_word by done.
    unfold MacroExpander.substitute. by rewrite Hnone.
  - intros w Hw Hself. rewrite expand_word by done.
    unfold MacroExpander.substitute. by rewrite Hself.
  - intros name first second. unfold MacroExpander.define.
    split; [apply insert_insert_eq|apply lookup_insert_eq].
Qed.

Lemma macro_processing_total_witness :
  MacroExpander.is_word "|a|" = true
  ∧ cyclic_macros !! "|a|" = Some "|a|"
  ∧ MacroExpander.expand cyclic_macros "|a|" = Ok ("|a| ", cyclic_macros)
  ∧ cyclic_macros !! "|b|" = None
  ∧ MacroExpander.expand cyclic_macros "|b|" = Ok ("|b| ", cyclic_macros).
Proof.
  assert (cyclic_macros !! "|a|" = Some "|a|") as Hself by (vm_compute; reflexivity).
  assert (cyclic_macros !! "|b|" = None) as Hnone by (vm_compute; reflexivity).
  split; [reflexivity|]. split; [exact Hself|]. split; [|split; [exact Hnone|]].
  - exact (proj1 (proj2 (proj2 (macro_processing_total cyclic_macros)))
             "|a|" eq_refl Hself).
  - exact (proj1 (proj2 (macro_processing_total cyclic_macros))
             "|b|" eq_refl Hnone).
Defined.

(** ** Semantic analyzer *)

(** C5, as stated, fails: in [x = x;] the identifier [x] is read with no
    declaration before the statement, and the analysis succeeds. *)
Lemma analyze_self_assignment_accepted :
  SemanticAnalyzer.analyze [Assignment "x" (IdentifierExpr "x")] ∅ = Ok {["x"]}.
Proof.
  unfold SemanticAnalyzer.analyze. simpl. unfold SemanticAnalyzer.analyzeAssignment.
  rewrite bool_decide_eq_true_2 by set_solver. simpl.
  by rewrite (right_id_L ∅ (∪)).
Qed.

(** C5, amended: when an identifier [y] is the value of a top-level
    assignment to another name and no earlier top-level statement assigns
    [y], semantic analysis fails with the runtime error "Semantic Error:
    Use of undeclared variable" naming an identifier that is used in this
    way: the first one, which is [y] when the statements before pass the
    analysis.  (The target of an assignment counts as declared while its
    own value is checked.) *)
Theorem analyze_undeclared (pre post : list Statement) (name y : string)
    (declared0 : gset string) :
  y ≠ name → y ∉ assigned pre →
  ∃ z,
    SemanticAnalyzer.analyze (pre ++ Assignment name (IdentifierExpr y) :: post) declared0
    = Throw (SemanticAnalyzer.undeclared z)
    ∧ used_undeclared (pre ++ Assignment name (IdentifierExpr y) :: post) z
    ∧ (∀ declared, SemanticAnalyzer.analyze pre declared0 = Ok declared → z = y).
Proof.
  intros Hne Hy. unfold SemanticAnalyzer.analyze.
  assert (∀ declared, SemanticAnalyzer.analyze_loop pre ∅ = Ok declared →
            SemanticAnalyzer.analyze_loop
              (pre ++ Assignment name (IdentifierExpr y) :: post) ∅
            = Throw (SemanticAnalyzer.undeclared y)) as Hfirst.
  { intros declared Hpre. rewrite analyze_loop_app, Hpre. simpl.
    apply analyze_loop_Ok in Hpre as ->.
    unfold SemanticAnalyzer.analyzeAssignment.
    rewrite bool_decide_eq_false_2 by set_solver. done. }
  destruct (analyze_loop_cases (pre ++ Assignment name (IdentifierExpr y) :: post) ∅)
    as [[declared' Hok]|(pre' & name' & z & post' & Heq & Hne' & Hz & Hthrow)].
  - exfalso. rewrite analyze_loop_app in Hok.
    destruct (SemanticAnalyzer.analyze_loop pre ∅) as [declared| | |] eqn:Hpre;
      try done.
    specialize (Hfirst declared eq_refl).
    rewrite analyze_loop_app, Hpre in Hfirst. congruence.
  - exists z. split; [done|]. split.
    + exists pre', name', post'. split_and!; [done..|set_solver].
    + intros declared Hpre. specialize (Hfirst declared Hpre).
      rewrite Hfirst in Hthrow. apply undeclared_inj. congruence.
Qed.

Lemma analyze_undeclared_witness :
  "x" ≠ "y" ∧ ("x" ∉ assigned [Assignment "a" (NumberExpr "1")])
  ∧ ∃ z, SemanticAnalyzer.analyze
           ([Assignment "a" (NumberExpr "1")]
              ++ Assignment "y" (IdentifierExpr "x") :: [Assignment "x" (NumberExpr "5")]) ∅
         = Throw (SemanticAnalyzer.undeclared z)
         ∧ used_undeclared
             ([Assignment "a" (NumberExpr "1")]
                ++ Assignment "y" (IdentifierExpr "x") :: [Assignment "x" (NumberExpr "5")]) z
         ∧ (∀ declared,
              SemanticAnalyzer.analyze [Assignment "a" (NumberExpr "1")] ∅ = Ok declared →
              z = "x").
Proof.
  assert ("x" ≠ "y") as Hne by discriminate.
  assert ("x" ∉ assigned [Assignment "a" (NumberExpr "1")]) as Hx
    by (simpl; set_solver).
  split; [exact Hne|]. split; [exact Hx|].
  exact (analyze_undeclared [Assignment "a" (NumberExpr "1")]
           [Assignment "x" (NumberExpr "5")] "y" "x" ∅ Hne Hx).
Defined.

(** C9: a self-referential assignment [x = x;] passes semantic analysis
    although [x] has no earlier declaration, alone or after statements that
    pass: its target is in the declared set when its value is checked. *)
Theorem analyze_self_reference (x : string) (declared0 : gset string) :
  SemanticAnalyzer.analyze [Assignment x (IdentifierExpr x)] declared0 = Ok {[x]}
  ∧ SemanticAnalyzer.analyzeAssignment x (IdentifierExpr x) ∅ = Ok ({[x]} ∪ ∅)
  ∧ (∀ pre declared,
       SemanticAnalyzer.analyze pre declared0 = Ok declared →
       SemanticAnalyzer.analyze (pre ++ [Assignment x (IdentifierExpr x)]) declared0
       = Ok ({[x]} ∪ declared)).
Proof.
  unfold SemanticAnalyzer.analyze. split_and!.
  - simpl. unfold SemanticAnalyzer.analyzeAssignment.
    rewrite bool_decide_eq_true_2 by set_solver. simpl.
    by rewrite (right_id_L ∅ (∪)).
  - unfold SemanticAnalyzer.analyzeAssignment.
    by rewrite bool_decide_eq_true_2 by set_solver.
  - intros pre declared Hpre. rewrite analyze_loop_app, Hpre. simpl.
    unfold SemanticAnalyzer.analyzeAssignment.
    by rewrite bool_decide_eq_true_2 by set_solver.
Qed.

Lemma analyze_self_reference_witness :
  SemanticAnalyzer.analyze [Assignment "a" (NumberExpr "1")] ∅ = Ok ({["a"]} ∪ ∅)
  ∧ ("x" ∉ assigned [Assignment "a" (NumberExpr "1")])
  ∧ SemanticAnalyzer.analyze
      ([Assignment "a" (NumberExpr "1")] ++ [Assignment "x" (IdentifierExpr "x")]) ∅
    = Ok ({["x"]} ∪ ({["a"]} ∪ ∅)).
Proof.
  assert (SemanticAnalyzer.analyze [Assignment "a" (NumberExpr "1")] ∅
          = Ok ({["a"]} ∪ ∅)) as Hpre by reflexivity.
  split; [exact Hpre|]. split; [simpl; set_solver|].
  exact (proj2 (proj2 (analyze_self_reference "x" ∅)) _ _ Hpre).
Defined.

(** C6: a return statement inside a top-level [if] block is outside every
    function body, and neither the walk with the flag [inFunction] nor
    [analyze] rejects it: both pass over an [IfStatement] without looking
    into its branches. *)
Theorem return_in_block_accepted :
  SemanticAnalyzer.checkReturns
    [IfStatement (IdentifierExpr "c") [ReturnStatement None] []] = Ok false
  ∧ SemanticAnalyzer.analyze
      [IfStatement (IdentifierExpr "c") [ReturnStatement None] []] ∅ = Ok ∅.
Proof. split; reflexivity. Qed.

(** ** NASM generator *)




(** ** The pipeline *)

(** C8: the files written by a run are a function of the source text and
    the macro table.  Two compilers with the same table produce the same
    outcome on the same source, whatever their analyzers remember of
    earlier runs; and a run leaves the compiler in a state from which the
    same source gives the same files again. *)
Theorem compile_deterministic (tokenize : string → list Token)
    (c1 c2 : Compiler) (source : string) :
  macros c1 = macros c2 →
  artifacts_of (compile tokenize c1 source) = artifacts_of (compile tokenize c2 source)
  ∧ (∀ files c', compile tokenize c1 source = Ok (files, c') →
       macros c' = macros c1 ∧ compile tokenize c' source = Ok (files, c')).
Proof.
  intros Hm. unfold compile. rewrite !expand_spec, <- Hm. simpl.
  split; [done|].
  intros files c' Hrun.
  destruct (Parser.parse _) as [statements| | |] eqn:Hparse; try done.
  simpl in Hrun. unfold SemanticAnalyzer.analyze in *.
  destruct (SemanticAnalyzer.analyze_loop statements ∅) as [declared'| | |] eqn:Hsem;
    try done.
  simpl in Hrun. injection Hrun as <- <-. simpl. rewrite expand_spec. simpl.
  split; [done|]. rewrite Hparse. simpl. by rewrite Hsem.
Qed.

Lemma compile_deterministic_witness :
  macros (mkCompiler default_macros ∅) = macros (mkCompiler default_macros {["stale"]})
  ∧ artifacts_of (compile (λ _, unterminated_tokens)
                    (mkCompiler default_macros ∅) "x = 5 y = 6")
    = artifacts_of (compile (λ _, unterminated_tokens)
                      (mkCompiler default_macros {["stale"]}) "x = 5 y = 6").
Proof.
  assert (macros (mkCompiler default_macros ∅)
          = macros (mkCompiler default_macros {["stale"]})) as Hm by reflexivity.
  split; [exact Hm|].
  exact (proj1 (compile_deterministic (λ _, unterminated_tokens)
                  (mkCompiler default_macros ∅)
                  (mkCompiler default_macros {["stale"]}) "x = 5 y = 6" Hm)).
Defined.

(** * Further properties of the code *)

(** ** Parser: one round as a table over four tokens *)

Section ParserTable.

Import Parser.
Local Open Scope parser_scope.

Implicit Types (tokens : list Token) (current : nat) (tok : Token)
  (kinds : list (TokenType.t * string)).

Lemma kinds_at tokens current :
  token_kinds tokens !! current
  = (λ tok, (type tok, lexeme tok)) <$> tokens !! current.
Proof. unfold token_kinds. by rewrite list_lookup_fmap. Qed.

Lemma peek_none tokens current :
  tokens !! current = None → peek tokens current = Undefined.
Proof. unfold peek, at_index. by intros ->. Qed.

Lemma parseExpression_table tokens current :
  parseExpression tokens current
  = match tokens !! current with
    | None => Undefined
    | Some tok =>
        match value_of_token (type tok) (lexeme tok) with
        | Some value => Ok (value, current + 1)
        | None => Throw "Invalid expression"
        end
    end.
Proof.
  unfold parseExpression, bind.
  destruct (tokens !! current) as [tok|] eqn:Htok.
  - destruct (decide (type tok = TokenType.Number)) as [Hnum|Hnum].
    { rewrite (match_hit _ _ _ _ Htok) by done.
      rewrite (previous_at _ _ _ Htok). by rewrite Hnum. }
    rewrite (match_miss _ _ _ _ Htok) by done.
    destruct (decide (type tok = TokenType.Identifier)) as [Hid|Hid].
    { rewrite (match_hit _ _ _ _ Htok) by done.
      rewrite (previous_at _ _ _ Htok). by rewrite Hid. }
    rewrite (match_miss _ _ _ _ Htok) by done.
    by destruct (type tok).
  - unfold match_, bind. by rewrite (peek_none _ _ Htok).
Qed.

Lemma match_table tokens current ty :
  ty ≠ TokenType.EndOfFile →
  match_ ty tokens current
  = match tokens !! current with
    | None => Undefined
    | Some tok =>
        if bool_decide (type tok = ty) then Ok (true, current + 1)
        else Ok (false, current)
    end.
Proof.
  intros Hty. destruct (tokens !! current) as [tok|] eqn:Htok.
  - case_bool_decide.
    + by eapply match_hit.
    + by eapply match_miss.
  - unfold match_, bind. by rewrite (peek_none _ _ Htok).
Qed.

(** [parseStatement] looks at the type and the lexeme of at most four
    tokens, and decides as the table does. *)
Lemma parseStatement_table tokens current :
  parseStatement tokens current = statement_at (token_kinds tokens) current.
Proof.
  unfold statement_at. rewrite !kinds_at.
  unfold parseStatement, bind at 1.
  destruct (tokens !! current) as [tn|] eqn:Hn; simpl;
    [rewrite (peek_at _ _ _ Hn)|by rewrite (peek_none _ _ Hn)].
  case_bool_decide as Hnt; [|done].
  unfold at_index.
  destruct (tokens !! (current + 1)) as [ta|] eqn:Ha; simpl; [|done].
  case_bool_decide as Hat; [|done].
  unfold parseAssignment, bind at 1. rewrite (peek_at _ _ _ Hn).
  unfold bind at 1. rewrite (advance_at _ _ _ Hn) by congruence.
  unfold bind at 1. rewrite (match_hit _ _ _ _ Ha) by done.
  unfold bind at 1. rewrite parseExpression_table.
  replace (current + 1 + 1) with (current + 2) by lia.
  destruct (tokens !! (current + 2)) as [tv|] eqn:Hv; simpl; [|done].
  destruct (value_of_token (type tv) (lexeme tv)) as [value|]; [|done].
  unfold bind. rewrite match_table by done.
  replace (current + 2 + 1) with (current + 3) by lia.
  destruct (tokens !! (current + 3)) as [te|] eqn:He; simpl; [|done].
  case_bool_decide; unfold ret; [|done].
  by replace (current + 3 + 1) with (current + 4) by lia.
Qed.

(** The loop of [parse], one round unfolded, over the kinds. *)
Lemma parse_loop_table fuel statements tokens current :
  parse_loop (S fuel) statements tokens current
  = match token_kinds tokens !! current with
    | None => Undefined
    | Some (ty, _) =>
        if bool_decide (ty = TokenType.EndOfFile) then Ok (statements, current)
        else
          match statement_at (token_kinds tokens) current with
          | Ok (stmt, current') =>
              parse_loop fuel (statements ++ [stmt]) tokens current'
          | Throw what => Throw what
          | Undefined => Undefined
          | OutOfFuel => OutOfFuel
          end
    end.
Proof.
  rewrite kinds_at, <- parseStatement_table. simpl. unfold bind at 1.
  destruct (tokens !! current) as [tok|] eqn:Htok; simpl.
  - rewrite (isAtEnd_at _ _ _ Htok). by case_bool_decide.
  - unfold isAtEnd, bind. by rewrite (peek_none _ _ Htok).
Qed.

Lemma value_of_token_spec value ty lx :
  value_token value = Some (ty, lx) ↔ value_of_token ty lx = Some value.
Proof.
  split.
  - destruct value; simpl; intros [= <- <-]; done.
  - destruct ty; simpl; intros [= <-]; done.
Qed.

Lemma statement_at_Ok kinds current stmt current' :
  statement_at kinds current = Ok (stmt, current') →
  simple_assignment stmt = true ∧ current + 3 ≤ current' ≤ length kinds.
Proof.
  unfold statement_at. intros H.
  destruct (kinds !! current) as [[ty name]|]; [|done].
  case_bool_decide; [|done].
  destruct (kinds !! (current + 1)) as [[ty1 lx1]|]; [|done].
  case_bool_decide; [|done].
  destruct (kinds !! (current + 2)) as [[ty2 lx2]|]; [|done].
  destruct (value_of_token ty2 lx2) as [value|] eqn:Hvalue; [|done].
  destruct (kinds !! (current + 3)) as [[ty3 lx3]|] eqn:H3; [|done].
  apply lookup_lt_Some in H3. apply value_of_token_spec in Hvalue.
  injection H as <- <-. split.
  - simpl. rewrite Hvalue. by apply bool_decide_eq_true_2.
  - case_bool_decide; lia.
Qed.

(** The loop reads the tokens through their kinds only. *)
Lemma parse_loop_kinds fuel statements tokens1 tokens2 current :
  token_kinds tokens1 = token_kinds tokens2 →
  parse_loop fuel statements tokens1 current
  = parse_loop fuel statements tokens2 current.
Proof.
  intros Hk. revert statements current.
  induction fuel as [|fuel IH]; intros statements current; [done|].
  rewrite !parse_loop_table, Hk.
  destruct (token_kinds tokens2 !! current) as [[ty lx]|]; [|done].
  case_bool_decide; [done|].
  destruct (statement_at (token_kinds tokens2) current) as [[stmt current']| | |];
    [apply IH|done..].
Qed.

Lemma parse_loop_simple fuel statements tokens current result final :
  parse_loop fuel statements tokens current = Ok (result, final) →
  Forall (λ stmt, simple_assignment stmt = true) statements →
  3 * length statements ≤ current →
  Forall (λ stmt, simple_assignment stmt = true) result
  ∧ 3 * length result ≤ final < length tokens.
Proof.
  revert statements current.
  induction fuel as [|fuel IH]; intros statements current; [done|].
  rewrite parse_loop_table.
  destruct (token_kinds tokens !! current) as [[ty lx]|] eqn:Hcur; [|done].
  apply lookup_lt_Some in Hcur. unfold token_kinds in Hcur.
  rewrite length_fmap in Hcur.
  case_bool_decide.
  - intros [= <- <-] Hs Hlen. split; [done|lia].
  - destruct (statement_at (token_kinds tokens) current)
      as [[stmt current']| | |] eqn:Hstmt; try done.
    apply statement_at_Ok in Hstmt as [Hsimple Hnext].
    intros Hloop Hs Hlen. apply (IH _ _ Hloop).
    + apply Forall_app. by split; [|constructor].
    + rewrite length_app. simpl. lia.
Qed.

(** *** A spelled program followed by other tokens *)

Lemma spelling_suffix_head prog ty lx rest :
  Forall (λ p, simple_assignment p.1 = true) prog →
  ty ≠ TokenType.EndOfLine →
  ∃ hty hlx hrest, spelling prog ++ (ty, lx) :: rest = (hty, hlx) :: hrest
                   ∧ hty ≠ TokenType.EndOfLine.
Proof.
  intros Hprog Hty. destruct Hprog as [|[stmt terminated] prog Hs _].
  - by eexists _, _, _.
  - destruct stmt; try done. simpl. by eexists _, _, _.
Qed.

Lemma kinds_drop_lookup kinds current i :
  drop current kinds !! i = kinds !! (current + i).
Proof. apply lookup_drop. Qed.

(** The rounds that read a spelled program: the statements are added to
    the vector and the cursor stands on the token after them. *)
Lemma parse_loop_prefix prog :
  Forall (λ p, simple_assignment p.1 = true) prog →
  ∀ fuel statements tokens current ty lx rest,
    drop current (token_kinds tokens) = spelling prog ++ (ty, lx) :: rest →
    ty ≠ TokenType.EndOfLine →
    ∃ current',
      drop current' (token_kinds tokens) = (ty, lx) :: rest
      ∧ parse_loop (length prog + fuel) statements tokens current
        = parse_loop fuel (statements ++ prog.*1) tokens current'.
Proof.
  induction 1 as [|[stmt terminated] prog Hs Hprog IH];
    intros fuel statements tokens current ty lx rest Hk Hty.
  { exists current. split; [done|]. simpl. by rewrite app_nil_r. }
  destruct stmt as [name value| | | | | | |]; try done.
  simpl in Hs. apply bool_decide_eq_true_1 in Hs as [[vty vlx] Hvalue].
  destruct (spelling_suffix_head prog ty lx rest Hprog Hty)
    as (hty & hlx & hrest & Hhead & Hne).
  simpl in Hk. rewrite Hvalue in Hk. simpl in Hk. rewrite <- app_assoc in Hk.
  assert (∀ i, token_kinds tokens !! (current + i)
               = ((TokenType.Identifier, name) :: (TokenType.Assign, "=")
                  :: (vty, vlx)
                  :: (if terminated then [(TokenType.EndOfLine, ";")] else [])
                  ++ spelling prog ++ (ty, lx) :: rest) !! i) as Hat.
  { intros i. by rewrite <- kinds_drop_lookup, Hk. }
  pose proof (Hat 0) as H0. pose proof (Hat 1) as H1. pose proof (Hat 2) as H2.
  pose proof (Hat 3) as H3. rewrite Nat.add_0_r in H0. simpl in H0, H1, H2, H3.
  apply value_of_token_spec in Hvalue.
  change (length ((Assignment name value, terminated) :: prog) + fuel)
    with (S (length prog + fuel)).
  rewrite parse_loop_table, H0. rewrite bool_decide_eq_false_2 by done.
  unfold statement_at. rewrite H0, H1, H2, Hvalue.
  rewrite !bool_decide_eq_true_2 by done.
  destruct terminated; simpl in H3.
  - rewrite H3. rewrite bool_decide_eq_true_2 by done.
    destruct (IH fuel (statements ++ [Assignment name value]) tokens (current + 4)
                ty lx rest) as (current' & Hdrop & Hloop); [|done|].
    { rewrite <- drop_drop, Hk. done. }
    exists current'. split; [done|]. rewrite Hloop. simpl.
    by rewrite <- app_assoc.
  - rewrite Hhead in H3. simpl in H3. rewrite H3.
    rewrite bool_decide_eq_false_2 by done.
    destruct (IH fuel (statements ++ [Assignment name value]) tokens (current + 3)
                ty lx rest) as (current' & Hdrop & Hloop); [|done|].
    { rewrite <- drop_drop, Hk. done. }
    exists current'. split; [done|]. rewrite Hloop. simpl.
    by rewrite <- app_assoc.
Qed.

(** [parse] on a spelled program followed by other tokens: the rounds
    left when the cursor reaches them. *)
Lemma parse_prefix prog tokens ty lx rest :
  Forall (λ p, simple_assignment p.1 = true) prog →
  token_kinds tokens = spelling prog ++ (ty, lx) :: rest →
  ty ≠ TokenType.EndOfLine →
  ∃ current' fuel,
    drop current' (token_kinds tokens) = (ty, lx) :: rest
    ∧ parse tokens
      = obind (parse_loop (S fuel) (prog.*1) tokens current') (λ r, Ok r.1).
Proof.
  intros Hprog Hk Hty.
  pose proof (spelling_length prog Hprog) as Hlen.
  assert (length tokens = length (spelling prog) + S (length rest)) as Hlength.
  { apply (f_equal length) in Hk. unfold token_kinds in Hk.
    rewrite length_fmap, length_app in Hk. simpl in Hk. lia. }
  destruct (parse_loop_prefix prog Hprog (S (length tokens - length prog)) []
              tokens 0 ty lx rest) as (current' & Hdrop & Hloop); [done..|].
  exists current', (length tokens - length prog). split; [done|].
  unfold parse.
  replace (S (length tokens)) with (length prog + S (length tokens - length prog))
    by lia.
  by rewrite Hloop.
Qed.

(** The loop on a spelled program with nothing after it. *)
Lemma parse_loop_no_eof prog :
  Forall (λ p, simple_assignment p.1 = true) prog →
  ∀ fuel statements tokens current,
    drop current (token_kinds tokens) = spelling prog →
    length prog < fuel →
    parse_loop fuel statements tokens current = Undefined.
Proof.
  induction 1 as [|[stmt terminated] prog Hs Hprog IH];
    intros [|fuel] statements tokens current Hk Hf; simpl in Hf; try lia.
  { rewrite parse_loop_table.
    by rewrite <- (Nat.add_0_r current), <- kinds_drop_lookup, Hk. }
  destruct stmt as [name value| | | | | | |]; try done.
  simpl in Hs. apply bool_decide_eq_true_1 in Hs as [[vty vlx] Hvalue].
  simpl in Hk. rewrite Hvalue in Hk. simpl in Hk.
  assert (∀ i, token_kinds tokens !! (current + i)
               = ((TokenType.Identifier, name) :: (TokenType.Assign, "=")
                  :: (vty, vlx)
                  :: (if terminated then [(TokenType.EndOfLine, ";")] else [])
                  ++ spelling prog) !! i) as Hat.
  { intros i. by rewrite <- kinds_drop_lookup, Hk. }
  pose proof (Hat 0) as H0. pose proof (Hat 1) as H1. pose proof (Hat 2) as H2.
  pose proof (Hat 3) as H3. rewrite Nat.add_0_r in H0. simpl in H0, H1, H2, H3.
  apply value_of_token_spec in Hvalue.
  rewrite parse_loop_table, H0. rewrite bool_decide_eq_false_2 by done.
  unfold statement_at. rewrite H0, H1, H2, Hvalue.
  rewrite !bool_decide_eq_true_2 by done.
  destruct terminated; simpl in H3.
  - rewrite H3. rewrite bool_decide_eq_true_2 by done.
    apply IH; [|lia]. rewrite <- drop_drop, Hk. done.
  - destruct Hprog as [|[stmt' terminated'] prog' Hs' Hprog'].
    { simpl in H3. by rewrite H3. }
    destruct stmt' as [name' value'| | | | | | |]; try done.
    simpl in H3. rewrite H3. rewrite bool_decide_eq_false_2 by done.
    apply IH; [|lia]. rewrite <- drop_drop, Hk. done.
Qed.

End ParserTable.

(** ** Parser: what [parse] accepts, rejects and reads *)

(** X1: the line and the column of the tokens have no influence on
    parsing: two token vectors with the same types and lexemes give the
    same outcome. *)
Theorem parse_positions_irrelevant (tokens1 tokens2 : list Token) :
  token_kinds tokens1 = token_kinds tokens2 →
  Parser.parse tokens1 = Parser.parse tokens2.
Proof.
  intros Hk. unfold Parser.parse.
  assert (length tokens1 = length tokens2) as ->.
  { apply (f_equal length) in Hk. unfold token_kinds in Hk.
    by rewrite !length_fmap in Hk. }
  by rewrite (parse_loop_kinds _ _ tokens1 tokens2).
Qed.

Lemma parse_positions_irrelevant_witness :
  token_kinds positioned_tokens = token_kinds unpositioned_tokens
  ∧ Parser.parse positioned_tokens = Parser.parse unpositioned_tokens.
Proof.
  assert (token_kinds positioned_tokens = token_kinds unpositioned_tokens) as Hk
    by reflexivity.
  split; [exact Hk|].
  exact (parse_positions_irrelevant positioned_tokens unpositioned_tokens Hk).
Defined.

(** X2: every statement that [parse] returns is an assignment of a number
    or of an identifier, and each of them took at least three tokens: the
    vector holds more than three tokens per statement. *)
Theorem parse_only_simple_assignments (tokens : list Token)
    (statements : list Statement) :
  Parser.parse tokens = Ok statements →
  Forall (λ stmt, simple_assignment stmt = true) statements
  ∧ 3 * length statements < length tokens.
Proof.
  unfold Parser.parse. intros H.
  destruct (Parser.parse_loop _ _ _ _) as [[result final]| | |] eqn:Hloop;
    try done.
  simpl in H. injection H as <-.
  apply parse_loop_simple in Hloop as [Hsimple Hlen]; [|done|simpl; lia].
  split; [done|lia].
Qed.

Lemma parse_only_simple_assignments_witness :
  Parser.parse unterminated_tokens
  = Ok [Assignment "x" (NumberExpr "5"); Assignment "y" (NumberExpr "6")]
  ∧ Forall (λ stmt, simple_assignment stmt = true)
      [Assignment "x" (NumberExpr "5"); Assignment "y" (NumberExpr "6")]
  ∧ 3 * length [Assignment "x" (NumberExpr "5"); Assignment "y" (NumberExpr "6")]
    < length unterminated_tokens.
Proof.
  assert (Parser.parse unterminated_tokens
          = Ok [Assignment "x" (NumberExpr "5"); Assignment "y" (NumberExpr "6")])
    as Hparse by reflexivity.
  split; [exact Hparse|].
  exact (parse_only_simple_assignments unterminated_tokens _ Hparse).
Defined.

Lemma parse_defined_witness :
  terminated stray_number_tokens
  ∧ ((∃ statements, Parser.parse stray_number_tokens = Ok statements)
     ∨ (∃ what, Parser.parse stray_number_tokens = Throw what)).
Proof.
  assert (terminated stray_number_tokens) as Hterm
    by (exists (tk TokenType.EndOfFile "" 9); split; reflexivity).
  split; [exact Hterm|].
  exact (parse_defined stray_number_tokens Hterm).
Defined.

(** X4: a token vector that spells assignments and holds no end-of-file
    token, the empty vector among them, makes [parse] subscript the vector
    out of range: the loop has no other way out than that token. *)
Theorem parse_without_eof (prog : list (Statement * bool)) (tokens : list Token) :
  Forall (λ p, simple_assignment p.1 = true) prog →
  token_kinds tokens = spelling prog →
  Parser.parse tokens = Undefined.
Proof.
  intros Hprog Hk. unfold Parser.parse.
  rewrite (parse_loop_no_eof prog Hprog); [done|done|].
  pose proof (spelling_length prog Hprog) as Hlen.
  apply (f_equal length) in Hk. unfold token_kinds in Hk.
  rewrite length_fmap in Hk. lia.
Qed.

Lemma parse_without_eof_witness :
  Forall (λ p, simple_assignment p.1 = true) [(Assignment "x" (NumberExpr "5"), true)]
  ∧ token_kinds open_tokens = spelling [(Assignment "x" (NumberExpr "5"), true)]
  ∧ Parser.parse open_tokens = Undefined
  ∧ Parser.parse [] = Undefined.
Proof.
  assert (Forall (λ p, simple_assignment p.1 = true)
            [(Assignment "x" (NumberExpr "5"), true)]) as Hprog
    by (repeat constructor).
  split; [exact Hprog|]. split; [reflexivity|]. split.
  - exact (parse_without_eof _ open_tokens Hprog eq_refl).
  - exact (parse_without_eof [] [] (List.Forall_nil _) eq_refl).
Defined.

(** X5: after any number of well-formed assignments, a token that is not
    an identifier (and not an end of line or end of file), or an
    identifier that is not followed by the assignment token, makes [parse]
    throw "Unexpected statement"; the statements read so far are lost. *)
Theorem parse_unexpected_statement (prog : list (Statement * bool))
    (tokens : list Token) (ty : TokenType.t) (lx : string)
    (rest : list (TokenType.t * string)) :
  Forall (λ p, simple_assignment p.1 = true) prog →
  token_kinds tokens = spelling prog ++ (ty, lx) :: rest →
  ty ≠ TokenType.EndOfLine → ty ≠ TokenType.EndOfFile →
  (ty = TokenType.Identifier →
   ∃ ty' lx' rest', rest = (ty', lx') :: rest' ∧ ty' ≠ TokenType.Assign) →
  Parser.parse tokens = Throw "Unexpected statement".
Proof.
  intros Hprog Hk Heol Heof Hnext.
  destruct (parse_prefix prog tokens ty lx rest Hprog Hk Heol)
    as (current' & fuel & Hdrop & ->).
  rewrite parse_loop_table.
  pose proof (kinds_drop_lookup (token_kinds tokens) current' 0) as H0.
  pose proof (kinds_drop_lookup (token_kinds tokens) current' 1) as H1.
  rewrite Hdrop, Nat.add_0_r in H0. rewrite Hdrop in H1. simpl in H0, H1.
  rewrite <- H0. rewrite bool_decide_eq_false_2 by done.
  unfold statement_at. rewrite <- H0.
  case_bool_decide as Hid; [|done].
  destruct (Hnext Hid) as (ty' & lx' & rest' & -> & Hassign).
  rewrite <- H1. simpl. by rewrite bool_decide_eq_false_2.
Qed.

Lemma parse_unexpected_statement_witness :
  Forall (λ p, simple_assignment p.1 = true) [(Assignment "x" (NumberExpr "5"), true)]
  ∧ token_kinds stray_number_tokens
    = spelling [(Assignment "x" (NumberExpr "5"), true)]
      ++ (TokenType.Number, "7") :: [(TokenType.EndOfFile, "")]
  ∧ Parser.parse stray_number_tokens = Throw "Unexpected statement".
Proof.
  assert (Forall (λ p, simple_assignment p.1 = true)
            [(Assignment "x" (NumberExpr "5"), true)]) as Hprog
    by (repeat constructor).
  split; [exact Hprog|]. split; [reflexivity|].
  refine (parse_unexpected_statement _ stray_number_tokens TokenType.Number "7"
            [(TokenType.EndOfFile, "")] Hprog eq_refl _ _ _); discriminate.
Defined.

(** X6: after any number of well-formed assignments, an identifier and
    the assignment token followed by a token that is neither a number nor
    an identifier make [parse] throw "Invalid expression". *)
Theorem parse_invalid_expression (prog : list (Statement * bool))
    (tokens : list Token) (name eq lx : string) (ty : TokenType.t)
    (rest : list (TokenType.t * string)) :
  Forall (λ p, simple_assignment p.1 = true) prog →
  token_kinds tokens
  = spelling prog
    ++ (TokenType.Identifier, name) :: (TokenType.Assign, eq) :: (ty, lx) :: rest →
  ty ≠ TokenType.Number → ty ≠ TokenType.Identifier →
  Parser.parse tokens = Throw "Invalid expression".
Proof.
  intros Hprog Hk Hnum Hid.
  destruct (parse_prefix prog tokens TokenType.Identifier name
              ((TokenType.Assign, eq) :: (ty, lx) :: rest) Hprog Hk)
    as (current' & fuel & Hdrop & ->); [done|].
  rewrite parse_loop_table.
  pose proof (kinds_drop_lookup (token_kinds tokens) current' 0) as H0.
  pose proof (kinds_drop_lookup (token_kinds tokens) current' 1) as H1.
  pose proof (kinds_drop_lookup (token_kinds tokens) current' 2) as H2.
  rewrite Hdrop, Nat.add_0_r in H0. rewrite Hdrop in H1, H2.
  simpl in H0, H1, H2.
  rewrite <- H0. rewrite bool_decide_eq_false_2 by done.
  unfold statement_at. rewrite <- H0, <- H1, <- H2.
  rewrite !bool_decide_eq_true_2 by done.
  by destruct ty.
Qed.

Lemma parse_invalid_expression_witness :
  Forall (λ p, simple_assignment p.1 = true) [(Assignment "x" (NumberExpr "5"), true)]
  ∧ token_kinds missing_value_tokens
    = spelling [(Assignment "x" (NumberExpr "5"), true)]
      ++ (TokenType.Identifier, "y") :: (TokenType.Assign, "=")
         :: (TokenType.EndOfLine, ";") :: [(TokenType.EndOfFile, "")]
  ∧ Parser.parse missing_value_tokens = Throw "Invalid expression".
Proof.
  assert (Forall (λ p, simple_assignment p.1 = true)
            [(Assignment "x" (NumberExpr "5"), true)]) as Hprog
    by (repeat constructor).
  split; [exact Hprog|]. split; [reflexivity|].
  refine (parse_invalid_expression _ missing_value_tokens "y" "=" ";"
            TokenType.EndOfLine [(TokenType.EndOfFile, "")] Hprog eq_refl _ _);
    discriminate.
Defined.

(** X7: [parse] stops at the first end-of-file token: a spelled program
    followed by that token parses to its statements whatever the lexeme of
    the token and whatever tokens follow it. *)
Theorem parse_stops_at_eof (prog : list (Statement * bool)) (tokens : list Token)
    (lx : string) (rest : list (TokenType.t * string)) :
  Forall (λ p, simple_assignment p.1 = true) prog →
  token_kinds tokens = spelling prog ++ (TokenType.EndOfFile, lx) :: rest →
  Parser.parse tokens = Ok (prog.*1).
Proof.
  intros Hprog Hk.
  destruct (parse_prefix prog tokens TokenType.EndOfFile lx rest Hprog Hk)
    as (current' & fuel & Hdrop & ->); [done|].
  rewrite parse_loop_table.
  pose proof (kinds_drop_lookup (token_kinds tokens) current' 0) as H0.
  rewrite Hdrop, Nat.add_0_r in H0. simpl in H0.
  rewrite <- H0. by rewrite bool_decide_eq_true_2.
Qed.

Lemma parse_stops_at_eof_witness :
  Forall (λ p, simple_assignment p.1 = true) [(Assignment "x" (NumberExpr "5"), true)]
  ∧ token_kinds trailing_tokens
    = spelling [(Assignment "x" (NumberExpr "5"), true)]
      ++ (TokenType.EndOfFile, "")
         :: [(TokenType.Symbol, "+"); (TokenType.Identifier, "y")]
  ∧ Parser.parse trailing_tokens = Ok [Assignment "x" (NumberExpr "5")].
Proof.
  assert (Forall (λ p, simple_assignment p.1 = true)
            [(Assignment "x" (NumberExpr "5"), true)]) as Hprog
    by (repeat constructor).
  split; [exact Hprog|]. split; [reflexivity|].
  exact (parse_stops_at_eof _ trailing_tokens ""
           [(TokenType.Symbol, "+"); (TokenType.Identifier, "y")] Hprog eq_refl).
Defined.

(** ** Macro expander: blank input, concatenation, repeated and unusable names *)

Section MacroMore.

Import MacroExpander.

Implicit Types (s t w : string) (m : gmap string string).

Lemma skip_ws_blank s : blank s = true → skip_ws s = "".
Proof.
  induction s as [|c s IH]; simpl; [done|].
  intros [Hc Hs]%andb_prop. rewrite Hc. by apply IH.
Qed.

Lemma skip_ws_not_blank s :
  blank s = false → ∃ c s', skip_ws s = String c s' ∧ Ascii.is_space c = false.
Proof.
  induction s as [|c s IH]; simpl; [done|].
  destruct (Ascii.is_space c) eqn:Hc; simpl; [done|]. intros _. by eexists _, _.
Qed.

Lemma words_blank s : words s = [] ↔ blank s = true.
Proof.
  rewrite words_unfold. unfold extract. split.
  - destruct (blank s) eqn:Hb; [done|].
    destruct (skip_ws_not_blank s Hb) as (c & s' & -> & Hc).
    simpl. rewrite Hc. by destruct (read_word s').
  - intros Hb. by rewrite skip_ws_blank.
Qed.

Lemma spaced_nil_inv (ws : list string) : spaced ws = "" → ws = [].
Proof.
  destruct ws as [|w ws]; [done|]. simpl. intros H.
  apply (f_equal String.length) in H. rewrite !slength_app in H. simpl in H. lia.
Qed.

Lemma substitute_define_other m name body w :
  w ≠ name → substitute (define name body m) w = substitute m w.
Proof.
  intros Hne. unfold substitute, define. by rewrite lookup_insert_ne.
Qed.

Lemma is_word_replicate n w :
  is_word w = true → Forall (λ w, is_word w = true) (replicate n w).
Proof. intros Hw. induction n; simpl; by constructor. Qed.

End MacroMore.

(** X8: [expand] returns the empty text exactly when the input holds no
    character other than whitespace; the empty input is such a text. *)
Theorem expand_blank (m : gmap string string) (input : string) :
  MacroExpander.expand m input = Ok ("", m) ↔ blank input = true.
Proof.
  rewrite expand_spec, <- words_blank. split.
  - intros [= H]. apply spaced_nil_inv in H. by apply fmap_nil_inv in H.
  - by intros ->.
Qed.

(** X9: the expansion of two texts joined by a whitespace character is
    the expansion of the first followed by the expansion of the second: no
    word is formed or looked up across the join. *)
Theorem expand_concat (m : gmap string string) (s t : string) (c : Ascii.ascii)
    (rs rt : string) :
  Ascii.is_space c = true →
  MacroExpander.expand m s = Ok (rs, m) →
  MacroExpander.expand m t = Ok (rt, m) →
  MacroExpander.expand m (s +:+ String c t) = Ok (rs +:+ rt, m).
Proof.
  intros Hc. rewrite !expand_spec. intros [= <-] [= <-].
  by rewrite words_app_space, fmap_app, spaced_app.
Qed.

Lemma expand_concat_witness :
  Ascii.is_space (Ascii.ascii_of_nat 10) = true
  ∧ MacroExpander.expand default_macros "y = 1;" = Ok ("y = 1; ", default_macros)
  ∧ MacroExpander.expand default_macros "|inc|" = Ok ("x = x + 1; ", default_macros)
  ∧ MacroExpander.expand default_macros
      ("y = 1;" +:+ String (Ascii.ascii_of_nat 10) "|inc|")
    = Ok ("y = 1; " +:+ "x = x + 1; ", default_macros).
Proof.
  assert (MacroExpander.expand default_macros "y = 1;"
          = Ok ("y = 1; ", default_macros)) as Hs by expand_eval.
  assert (MacroExpander.expand default_macros "|inc|"
          = Ok ("x = x + 1; ", default_macros)) as Ht by expand_eval.
  split; [reflexivity|]. split; [exact Hs|]. split; [exact Ht|].
  exact (expand_concat default_macros "y = 1;" "|inc|" (Ascii.ascii_of_nat 10)
           _ _ eq_refl Hs Ht).
Defined.

(** X10: every occurrence of a macro is replaced, not the first one
    only: [n] invocations of a macro, each followed by a space, expand to
    [n] copies of its body, each followed by a space. *)
Theorem expand_every_occurrence (m : gmap string string) (name body : string)
    (n : nat) :
  MacroExpander.is_word name = true → m !! name = Some body →
  MacroExpander.expand m (MacroExpander.spaced (replicate n name))
  = Ok (MacroExpander.spaced (replicate n body), m).
Proof.
  intros Hname Hbody. rewrite expand_spec.
  rewrite words_spaced by (by apply is_word_replicate).
  rewrite fmap_replicate. unfold MacroExpander.substitute. by rewrite Hbody.
Qed.

Lemma expand_every_occurrence_witness :
  MacroExpander.is_word "|inc|" = true
  ∧ default_macros !! "|inc|" = Some "x = x + 1;"
  ∧ MacroExpander.expand default_macros "|inc| |inc| "
    = Ok ("x = x + 1; x = x + 1; ", default_macros).
Proof.
  assert (default_macros !! "|inc|" = Some "x = x + 1;") as Hinc
    by (vm_compute; reflexivity).
  split; [reflexivity|]. split; [exact Hinc|].
  exact (expand_every_occurrence default_macros "|inc|" "x = x + 1;" 2 eq_refl Hinc).
Defined.

(** X11: a macro defined under a name that is empty or holds a
    whitespace character is never expanded: defining it changes the
    result of no expansion. *)
Theorem define_unusable_name (m : gmap string string) (name body input result : string) :
  MacroExpander.is_word name = false →
  MacroExpander.expand m input = Ok (result, m) →
  MacroExpander.expand (MacroExpander.define name body m) input
  = Ok (result, MacroExpander.define name body m).
Proof.
  intros Hname. rewrite !expand_spec. intros [= <-]. do 3 f_equal.
  apply Forall_fmap_ext_1. eapply Forall_impl; [apply words_are_words|].
  intros w Hw. apply substitute_define_other. congruence.
Qed.

Lemma define_unusable_name_witness :
  MacroExpander.is_word "two words" = false
  ∧ MacroExpander.expand default_macros "two words" = Ok ("two words ", default_macros)
  ∧ MacroExpander.expand (MacroExpander.define "two words" "one" default_macros)
      "two words"
    = Ok ("two words ", MacroExpander.define "two words" "one" default_macros).
Proof.
  assert (MacroExpander.expand default_macros "two words"
          = Ok ("two words ", default_macros)) as Hplain by expand_eval.
  split; [reflexivity|]. split; [exact Hplain|].
  exact (define_unusable_name default_macros "two words" "one" "two words" _
           eq_refl Hplain).
Defined.

(** X12: [loadDefaults] overwrites a macro that was defined before it
    under one of its three names, and commutes with the definition of a
    macro under any other name. *)
Theorem loadDefaults_overrides (m : gmap string string) (name body : string) :
  (name ∈ ["|inc|"; "|dec|"; "|reset|"] →
   MacroExpander.loadDefaults (MacroExpander.define name body m)
   = MacroExpander.loadDefaults m)
  ∧ (name ∉ ["|inc|"; "|dec|"; "|reset|"] →
     MacroExpander.loadDefaults (MacroExpander.define name body m)
     = MacroExpander.define name body (MacroExpander.loadDefaults m)).
Proof.
  unfold MacroExpander.loadDefaults, MacroExpander.define. split; intros Hname.
  - apply map_eq. intros k. rewrite !lookup_insert.
    repeat case_decide; try done. set_solver.
  - apply map_eq. intros k. rewrite !lookup_insert.
    repeat case_decide; try done; set_solver.
Qed.

Lemma loadDefaults_overrides_witness :
  ("|inc|" ∈ ["|inc|"; "|dec|"; "|reset|"])
  ∧ MacroExpander.loadDefaults (MacroExpander.define "|inc|" "x = 9;" ∅)
    = MacroExpander.loadDefaults ∅
  ∧ ("|log|" ∉ ["|inc|"; "|dec|"; "|reset|"])
  ∧ MacroExpander.loadDefaults (MacroExpander.define "|log|" "y = x;" ∅)
    = MacroExpander.define "|log|" "y = x;" (MacroExpander.loadDefaults ∅).
Proof.
  assert ("|inc|" ∈ ["|inc|"; "|dec|"; "|reset|"]) as Hin by set_solver.
  assert ("|log|" ∉ ["|inc|"; "|dec|"; "|reset|"]) as Hout by set_solver.
  split; [exact Hin|]. split; [|split; [exact Hout|]].
  - exact (proj1 (loadDefaults_overrides ∅ "|inc|" "x = 9;") Hin).
  - exact (proj2 (loadDefaults_overrides ∅ "|log|" "y = x;") Hout).
Defined.

(** ** Semantic analyzer: when the analysis passes *)

Section AnalyzerMore.

Import SemanticAnalyzer.

Implicit Types (statements pre post : list Statement) (declared : gset string).

Lemma analyze_loop_undeclared pre name y post declared :
  y ≠ name → y ∉ assigned pre ∪ declared →
  ∀ result, analyze_loop (pre ++ Assignment name (IdentifierExpr y) :: post) declared
            ≠ Ok result.
Proof.
  intros Hne Hy result. rewrite analyze_loop_app.
  destruct (analyze_loop pre declared) as [d| | |] eqn:Hpre; try done.
  apply analyze_loop_Ok in Hpre as ->. simpl. unfold analyzeAssignment.
  rewrite bool_decide_eq_false_2 by set_solver. done.
Qed.

Lemma analyze_loop_passes statements :
  (∀ y, ¬ used_undeclared statements y) →
  analyze_loop statements ∅ = Ok (assigned statements).
Proof.
  intros Hnone.
  destruct (analyze_loop_cases statements ∅)
    as [[declared' Hok]|(pre & name & z & post & -> & Hne & Hz & _)].
  - rewrite Hok. apply analyze_loop_Ok in Hok as ->.
    by rewrite (right_id_L ∅ (∪)).
  - destruct (Hnone z). exists pre, name, post. split_and!; [done..|set_solver].
Qed.

Lemma checkStatement_flag stmt flag :
  checkStatement stmt false = Ok flag → flag = false.
Proof.
  destruct stmt; simpl; try (by intros [= <-]).
  match goal with |- obind ?r _ = _ → _ => destruct r end; simpl; try done.
  by intros [= <-].
Qed.

Lemma checkReturns_loop_flag statements flag :
  checkReturns_loop statements false = Ok flag → flag = false.
Proof.
  revert flag. induction statements as [|stmt statements IH]; intros flag; simpl.
  - by intros [= <-].
  - destruct (checkStatement stmt false) as [f| | |] eqn:Hstmt; try done.
    apply checkStatement_flag in Hstmt as ->. apply IH.
Qed.

Lemma checkReturns_loop_app pre post flag :
  checkReturns_loop (pre ++ post) flag
  = obind (checkReturns_loop pre flag) (checkReturns_loop post).
Proof.
  revert flag. induction pre as [|stmt pre IH]; intros flag; [done|].
  simpl. destruct (checkStatement stmt flag); simpl; [apply IH|done..].
Qed.

End AnalyzerMore.

(** X13: semantic analysis passes exactly when no identifier is the value
    of a top-level assignment to another name without an earlier top-level
    assignment to it; the declared set it leaves is then the set of the
    assigned names, whatever the set held before. *)
Theorem analyze_passes_iff (statements : list Statement) (declared0 : gset string) :
  SemanticAnalyzer.analyze statements declared0 = Ok (assigned statements)
  ↔ ∀ y, ¬ used_undeclared statements y.
Proof.
  unfold SemanticAnalyzer.analyze. split.
  - intros Hok y (pre & name & post & -> & Hne & Hy).
    by eapply (analyze_loop_undeclared pre name y post ∅); [|set_solver|].
  - apply analyze_loop_passes.
Qed.

(** X14: only a value that is a bare identifier is checked.  A program in
    which no assignment has such a value passes the analysis, also when
    its values read undeclared names inside a field access, a call or a
    ternary, and when it holds statements of other kinds. *)
Theorem analyze_compound_unchecked (statements : list Statement)
    (declared0 : gset string) :
  Forall (λ stmt, identifier_value stmt = false) statements →
  SemanticAnalyzer.analyze statements declared0 = Ok (assigned statements).
Proof.
  intros Hvalues. unfold SemanticAnalyzer.analyze. apply analyze_loop_passes.
  intros y (pre & name & post & -> & _).
  apply Forall_app in Hvalues as [_ Hvalues].
  by apply Forall_cons in Hvalues as [? _].
Qed.

Lemma analyze_compound_unchecked_witness :
  Forall (λ stmt, identifier_value stmt = false)
    [Assignment "y" (FieldAccess (IdentifierExpr "p") "name");
     ReturnStatement (Some (IdentifierExpr "q"))]
  ∧ SemanticAnalyzer.analyze
      [Assignment "y" (FieldAccess (IdentifierExpr "p") "name");
       ReturnStatement (Some (IdentifierExpr "q"))] ∅
    = Ok (assigned [Assignment "y" (FieldAccess (IdentifierExpr "p") "name");
                    ReturnStatement (Some (IdentifierExpr "q"))]).
Proof.
  assert (Forall (λ stmt, identifier_value stmt = false)
            [Assignment "y" (FieldAccess (IdentifierExpr "p") "name");
             ReturnStatement (Some (IdentifierExpr "q"))]) as Hvalues
    by (repeat constructor).
  split; [exact Hvalues|].
  exact (analyze_compound_unchecked _ ∅ Hvalues).
Defined.

(** X15: in the return-placement walk, a return statement that stands
    directly in the top-level list is rejected wherever it stands: after
    statements that pass the walk, function definitions among them, it
    throws "Return statement used outside a function.". *)
Theorem checkReturns_top_level_anywhere (pre post : list Statement)
    (returnValue : option Expression) (flag : bool) :
  SemanticAnalyzer.checkReturns pre = Ok flag →
  SemanticAnalyzer.checkReturns (pre ++ ReturnStatement returnValue :: post)
  = Throw "Return statement used outside a function.".
Proof.
  unfold SemanticAnalyzer.checkReturns. intros Hpre.
  rewrite checkReturns_loop_app, Hpre.
  by apply checkReturns_loop_flag in Hpre as ->.
Qed.

Lemma checkReturns_top_level_anywhere_witness :
  SemanticAnalyzer.checkReturns
    [Assignment "x" (NumberExpr "1"); FunctionDef "f" [] [ReturnStatement None]]
  = Ok false
  ∧ SemanticAnalyzer.checkReturns
      ([Assignment "x" (NumberExpr "1"); FunctionDef "f" [] [ReturnStatement None]]
         ++ ReturnStatement None :: [Assignment "y" (NumberExpr "2")])
    = Throw "Return statement used outside a function.".
Proof.
  assert (SemanticAnalyzer.checkReturns
            [Assignment "x" (NumberExpr "1"); FunctionDef "f" [] [ReturnStatement None]]
          = Ok false) as Hpre by reflexivity.
  split; [exact Hpre|].
  exact (checkReturns_top_level_anywhere _ [Assignment "y" (NumberExpr "2")]
           None false Hpre).
Defined.

(** ** Emitters and the pipeline *)

Section EmitterMore.

Implicit Types (statements pre post : list Statement) (out : string).

Lemma emit_statement_out out stmt :
  IREmitter.emit_statement out stmt = out +:+ IREmitter.emit_statement "" stmt.
Proof.
  destruct stmt as [name value| | | | | | |]; simpl; rewrite ?sapp_nil_r; try done.
  destruct value; simpl; by rewrite ?sapp_nil_r, ?sapp_assoc.
Qed.

Lemma fold_emit_out statements out :
  fold_left IREmitter.emit_statement statements out
  = out +:+ fold_left IREmitter.emit_statement statements "".
Proof.
  revert out. induction statements as [|stmt statements IH]; intros out; simpl.
  - by rewrite sapp_nil_r.
  - rewrite IH, (IH (IREmitter.emit_statement "" stmt)), emit_statement_out.
    by rewrite sapp_assoc.
Qed.

Lemma emit_statement_simple stmt :
  simple_assignment stmt = true → IREmitter.emit_statement "" stmt = ir_line stmt.
Proof.
  destruct stmt as [name value| | | | | | |]; try done.
  destruct value; try done; intros _; simpl; by rewrite ?sapp_assoc.
Qed.

Lemma fold_emit_simple statements :
  Forall (λ stmt, simple_assignment stmt = true) statements →
  fold_left IREmitter.emit_statement statements "" = ir_lines statements.
Proof.
  induction 1 as [|stmt statements Hs _ IH]; [done|].
  simpl. by rewrite fold_emit_out, IH, emit_statement_simple.
Qed.

Lemma data_lines_app pre post :
  data_lines (pre ++ post) = data_lines pre +:+ data_lines post.
Proof.
  induction pre as [|stmt pre IH]; [done|]. simpl. by rewrite IH, sapp_assoc.
Qed.

Lemma generate_text statements :
  NASMGenerator.generate statements true = Ok (asm_text statements).
Proof.
  unfold NASMGenerator.generate, asm_text.
  rewrite fold_data_lines, fold_entry_code.
  unfold NASMGenerator.text_header, NASMGenerator.exit_sequence.
  by rewrite !sapp_assoc.
Qed.


End EmitterMore.

(** X16: whatever [parse] returns, the IR emitter writes as one complete
    line per statement, in order: a [STORE] of [NUM] or of [REF], ended by
    a newline. *)
Theorem emit_parsed_lines (tokens : list Token) (statements : list Statement) :
  Parser.parse tokens = Ok statements →
  IREmitter.emit statements true = Ok (ir_lines statements).
Proof.
  unfold Parser.parse. intros H.
  destruct (Parser.parse_loop _ _ _ _) as [[result final]| | |] eqn:Hloop;
    try done.
  simpl in H. injection H as <-.
  apply parse_loop_simple in Hloop as [Hsimple _]; [|done|simpl; lia].
  unfold IREmitter.emit. by rewrite fold_emit_simple.
Qed.

Lemma emit_parsed_lines_witness :
  Parser.parse prefix_tokens
  = Ok [Assignment "x" (NumberExpr "5"); Assignment "y" (IdentifierExpr "x")]
  ∧ IREmitter.emit
      [Assignment "x" (NumberExpr "5"); Assignment "y" (IdentifierExpr "x")] true
    = Ok (ir_lines [Assignment "x" (NumberExpr "5");
                    Assignment "y" (IdentifierExpr "x")]).
Proof.
  assert (Parser.parse prefix_tokens
          = Ok [Assignment "x" (NumberExpr "5"); Assignment "y" (IdentifierExpr "x")])
    as Hparse by reflexivity.
  split; [exact Hparse|].
  exact (emit_parsed_lines prefix_tokens _ Hparse).
Defined.

(** X17: for an assignment whose value is neither a number nor an
    identifier the IR emitter writes [STORE name <- ] and no newline, so
    the text of the statements that follow continues that line. *)
Theorem emit_unfinished_line (name : string) (value : Expression)
    (rest : list Statement) (text : string) :
  value_token value = None →
  IREmitter.emit rest true = Ok text →
  IREmitter.emit (Assignment name value :: rest) true
  = Ok ("STORE " +:+ name +:+ " <- " +:+ text).
Proof.
  intros Hvalue [= <-]. unfold IREmitter.emit. simpl.
  rewrite fold_emit_out. f_equal.
  destruct value; try done; simpl; by rewrite ?sapp_assoc.
Qed.

Lemma emit_unfinished_line_witness :
  value_token (StructInit "Vec2") = None
  ∧ IREmitter.emit [Assignment "b" (NumberExpr "1")] true
    = Ok ("STORE b <- NUM(1)" +:+ nl)
  ∧ IREmitter.emit [Assignment "v" (StructInit "Vec2"); Assignment "b" (NumberExpr "1")]
      true
    = Ok ("STORE " +:+ "v" +:+ " <- " +:+ "STORE b <- NUM(1)" +:+ nl).
Proof.
  assert (IREmitter.emit [Assignment "b" (NumberExpr "1")] true
          = Ok ("STORE b <- NUM(1)" +:+ nl)) as Hrest by reflexivity.
  split; [reflexivity|]. split; [exact Hrest|].
  exact (emit_unfinished_line "v" (StructInit "Vec2")
           [Assignment "b" (NumberExpr "1")] _ eq_refl Hrest).
Defined.

(** X18: the data section declares a name once per assignment, not once
    per name: when a name is assigned twice, the assembly text starts with
    a data section that holds the line [name dq 0] twice. *)
Theorem generate_declares_per_assignment (pre mid post : list Statement)
    (name : string) (value1 value2 : Expression) :
  ∃ tail,
    NASMGenerator.generate
      (pre ++ Assignment name value1 :: mid ++ Assignment name value2 :: post) true
    = Ok ("section .data" +:+ nl +:+ data_lines pre
          +:+ (name +:+ " dq 0" +:+ nl) +:+ data_lines mid
          +:+ (name +:+ " dq 0" +:+ nl) +:+ data_lines post +:+ tail).
Proof.
  eexists. rewrite generate_text. unfold asm_text.
  rewrite data_lines_app. simpl. rewrite data_lines_app. simpl.
  rewrite !sapp_assoc. reflexivity.
Qed.


